(** * Linux capability enumeration and last-capability discovery

    A shallow embedding of [capability/enum.go]: the [CapType] selectors,
    the [Cap] name table ([Cap.String]), the package variables
    [CAP_LAST_CAP] and [capUpperMask], the reader [getLastCap] and the
    package initialiser [init].

    Conventions.
    - Go's [int] and [uint] are taken as 64 bits wide, [uint32] as 32 bits;
      all of them are embedded in [Z] with the wrap-around written out.
    - A Go [string] is a sequence of bytes: [list ascii], a byte's numeric
      value being [b2z].
    - The Go standard library functions that [getLastCap] calls
      ([strings.TrimSpace], [strconv.Atoi] and what they use of
      [unicode/utf8] and [unicode]) are embedded in modules named after
      their packages; their loops over byte offsets carry a fuel, shown
      below to be enough.
    - The in-memory capability sets and their accessors are declared in a
      file of the package that is not at hand; module [State] gives them
      as the specification describes them. *)

From Stdlib Require Import ZArith List Bool Ascii String Lia.
Import ListNotations.

Local Open Scope Z_scope.

(** ** Bytes and strings *)

Definition byte := ascii.
Definition gostring := list byte.

Definition b2z (c : byte) : Z := Z.of_N (N_of_ascii c).

(** [gostr "63"] is the Go string literal ["63"]. *)
Definition gostr (s : string) : gostring := list_ascii_of_string s.

Definition len (s : gostring) : Z := Z.of_nat (List.length s).

(** [s[i:]] and [s[:i]] for [0 <= i <= len s]. *)
Definition from (s : gostring) (i : Z) : gostring := skipn (Z.to_nat i) s.
Definition upto (s : gostring) (i : Z) : gostring := firstn (Z.to_nat i) s.

(** ** Fixed-width integers *)

Definition wrap32 (x : Z) : Z := x mod 2 ^ 32.

(** [x << k] on [uint32]. *)
Definition shl32 (x k : Z) : Z := wrap32 (Z.shiftl x k).

(** [x - y] on [uint32]. *)
Definition sub32 (x y : Z) : Z := wrap32 (x - y).

(** [^x] on [uint32]. *)
Definition not32 (x : Z) : Z := wrap32 (Z.lnot x).

Definition maxInt : Z := 2 ^ 63 - 1.
Definition minInt : Z := - 2 ^ 63.
Definition maxUint64 : Z := 2 ^ 64 - 1.

(** ** Errors and results *)

Inductive error : Type :=
| PathError            (* ioutil.ReadFile failed *)
| ErrSyntax            (* strconv.ErrSyntax *)
| ErrRange.            (* strconv.ErrRange *)

Inductive result (A : Type) : Type :=
| Ok (a : A)
| Err (e : error).
Arguments Ok {A} a.
Arguments Err {A} e.

Definition bind {A B : Type} (r : result A) (k : A -> result B) : result B :=
  match r with
  | Ok a => k a
  | Err e => Err e
  end.

Notation "x <- r ;; k" := (bind r (fun x => k))
  (at level 61, r at next level, right associativity).

Definition is_ok {A : Type} (r : result A) : bool :=
  match r with Ok _ => true | Err _ => false end.

(** ** unicode/utf8 *)

Module utf8.

Definition RuneError : Z := 0xFFFD.
Definition RuneSelf : Z := 0x80.
Definition UTFMax : Z := 4.

Definition maskx : Z := 0x3F.
Definition mask2 : Z := 0x1F.
Definition mask3 : Z := 0x0F.
Definition mask4 : Z := 0x07.
Definition locb : Z := 0x80.
Definition hicb : Z := 0xBF.

(** The table [first]: information about the first byte of an encoding.
    [0xF0] is an ASCII byte, [0xF1] an invalid one; otherwise the low three
    bits are the size and the high four the index into [acceptRanges]. *)
Definition first (b : Z) : Z :=
  if b <? 0x80 then 0xF0
  else if b <? 0xC2 then 0xF1
  else if b <? 0xE0 then 0x02
  else if b =? 0xE0 then 0x13
  else if b <? 0xED then 0x03
  else if b =? 0xED then 0x23
  else if b <? 0xF0 then 0x03
  else if b =? 0xF0 then 0x34
  else if b <? 0xF4 then 0x04
  else if b =? 0xF4 then 0x44
  else 0xF1.

Definition acceptRanges (i : Z) : Z * Z :=
  match i with
  | 0 => (locb, hicb)
  | 1 => (0xA0, hicb)
  | 2 => (locb, 0x9F)
  | 3 => (0x90, hicb)
  | 4 => (locb, 0x8F)
  | _ => (0, 0)
  end.

Definition RuneStart (b : byte) : bool :=
  negb (Z.land (b2z b) 0xC0 =? 0x80).

(** [DecodeRuneInString s] is the first rune of [s] and its width in
    bytes; an invalid encoding gives [(RuneError, 1)], the empty string
    [(RuneError, 0)]. *)
Definition DecodeRuneInString (s : gostring) : Z * Z :=
  match s with
  | [] => (RuneError, 0)
  | c0 :: t0 =>
    let s0 := b2z c0 in
    let x := first s0 in
    if 0xF0 <=? x then ((if Z.odd x then RuneError else s0), 1)
    else
      let sz := Z.land x 7 in
      let accept := acceptRanges (Z.shiftr x 4) in
      if len s <? sz then (RuneError, 1)
      else
        match t0 with
        | [] => (RuneError, 1)
        | c1 :: t1 =>
          let s1 := b2z c1 in
          if (s1 <? fst accept) || (snd accept <? s1) then (RuneError, 1)
          else if sz <=? 2 then
            (Z.lor (Z.shiftl (Z.land s0 mask2) 6) (Z.land s1 maskx), 2)
          else
            match t1 with
            | [] => (RuneError, 1)
            | c2 :: t2 =>
              let s2 := b2z c2 in
              if (s2 <? locb) || (hicb <? s2) then (RuneError, 1)
              else if sz <=? 3 then
                (Z.lor (Z.lor (Z.shiftl (Z.land s0 mask3) 12)
                              (Z.shiftl (Z.land s1 maskx) 6))
                       (Z.land s2 maskx), 3)
              else
                match t2 with
                | [] => (RuneError, 1)
                | c3 :: _ =>
                  let s3 := b2z c3 in
                  if (s3 <? locb) || (hicb <? s3) then (RuneError, 1)
                  else
                    (Z.lor (Z.lor (Z.lor (Z.shiftl (Z.land s0 mask4) 18)
                                         (Z.shiftl (Z.land s1 maskx) 12))
                                  (Z.shiftl (Z.land s2 maskx) 6))
                           (Z.land s3 maskx), 4)
                end
            end
        end
  end.

(** The loop of [DecodeLastRuneInString]:
    [for start--; start >= lim; start-- { if RuneStart(s[start]) { break } }],
    entered after the [start--] of its init statement. *)
Fixpoint backToStart (fuel : nat) (s : gostring) (lim start : Z) : Z :=
  match fuel with
  | O => start
  | S k =>
    if lim <=? start then
      match nth_error s (Z.to_nat start) with
      | Some b => if RuneStart b then start else backToStart k s lim (start - 1)
      | None => start
      end
    else start
  end.

(** [DecodeLastRuneInString s] is the last rune of [s] and its width. *)
Definition DecodeLastRuneInString (s : gostring) : Z * Z :=
  let end_ := len s in
  if end_ =? 0 then (RuneError, 0)
  else
    let start := end_ - 1 in
    let r := match nth_error s (Z.to_nat start) with
             | Some b => b2z b
             | None => 0
             end in
    if r <? RuneSelf then (r, 1)
    else
      let lim := Z.max 0 (end_ - UTFMax) in
      let start := backToStart (Z.to_nat UTFMax) s lim (start - 1) in
      let start := Z.max 0 start in
      let '(r, size) := DecodeRuneInString (from s start) in
      if start + size =? end_ then (r, size) else (RuneError, 1).

End utf8.

(** ** unicode *)

Module unicode.

Definition MaxLatin1 : Z := 0xFF.

(** The ranges of the [White_Space] table above Latin-1. *)
Definition White_Space_excludingLatin (r : Z) : bool :=
  (r =? 0x1680)
  || ((0x2000 <=? r) && (r <=? 0x200A))
  || ((0x2028 <=? r) && (r <=? 0x2029))
  || (r =? 0x202F)
  || (r =? 0x205F)
  || (r =? 0x3000).

Definition IsSpace (r : Z) : bool :=
  if wrap32 r <=? MaxLatin1 then
    match r with
    | 0x09 | 0x0A | 0x0B | 0x0C | 0x0D | 0x20 | 0x85 | 0xA0 => true
    | _ => false
    end
  else White_Space_excludingLatin r.

End unicode.

(** ** strings *)

Module strings.

(** The table [asciiSpace]: tab, newline, vertical tab, form feed,
    carriage return and space. *)
Definition asciiSpace (c : byte) : bool :=
  match b2z c with
  | 0x09 | 0x0A | 0x0B | 0x0C | 0x0D | 0x20 => true
  | _ => false
  end.

(** [for i, r := range s { if f(r) == truth { return i } }; return -1],
    the loop standing at byte offset [i] with [rest = s[i:]]. *)
Fixpoint indexFunc_loop (fuel : nat) (f : Z -> bool) (truth : bool)
    (rest : gostring) (i : Z) : Z :=
  match fuel with
  | O => -1
  | S k =>
    match rest with
    | [] => -1
    | _ :: _ =>
      let '(r, size) := utf8.DecodeRuneInString rest in
      if Bool.eqb (f r) truth then i
      else indexFunc_loop k f truth (from rest size) (i + size)
    end
  end.

Definition indexFunc (s : gostring) (f : Z -> bool) (truth : bool) : Z :=
  indexFunc_loop (List.length s) f truth s 0.

(** [for i := len(s); i > 0; { r, size := DecodeLastRuneInString(s[0:i]);
    i -= size; if f(r) == truth { return i } }; return -1]. *)
Fixpoint lastIndexFunc_loop (fuel : nat) (f : Z -> bool) (truth : bool)
    (s : gostring) (i : Z) : Z :=
  match fuel with
  | O => -1
  | S k =>
    if 0 <? i then
      let '(r, size) := utf8.DecodeLastRuneInString (upto s i) in
      let i := i - size in
      if Bool.eqb (f r) truth then i
      else lastIndexFunc_loop k f truth s i
    else -1
  end.

Definition lastIndexFunc (s : gostring) (f : Z -> bool) (truth : bool) : Z :=
  lastIndexFunc_loop (List.length s) f truth s (len s).

Definition TrimLeftFunc (s : gostring) (f : Z -> bool) : gostring :=
  let i := indexFunc s f false in
  if i =? -1 then [] else from s i.

Definition TrimRightFunc (s : gostring) (f : Z -> bool) : gostring :=
  let i := lastIndexFunc s f false in
  let i :=
    if (0 <=? i)
       && (utf8.RuneSelf <=? match nth_error s (Z.to_nat i) with
                            | Some b => b2z b
                            | None => 0
                            end)
    then i + snd (utf8.DecodeRuneInString (from s i))
    else i + 1 in
  upto s i.

Definition TrimFunc (s : gostring) (f : Z -> bool) : gostring :=
  TrimRightFunc (TrimLeftFunc s f) f.

(** The second loop of [TrimSpace], over [stop], on the reversal of
    [s[start:stop]]. *)
Fixpoint trimStop (r : gostring) : gostring :=
  match r with
  | [] => []
  | c :: r' =>
    if utf8.RuneSelf <=? b2z c then TrimRightFunc (rev r) unicode.IsSpace
    else if asciiSpace c then trimStop r'
    else rev r
  end.

(** [TrimSpace s]: the first loop, over [start], runs down the string; a
    byte that is not ASCII hands the rest to [TrimFunc]. *)
Fixpoint TrimSpace (s : gostring) : gostring :=
  match s with
  | [] => []
  | c :: rest =>
    if utf8.RuneSelf <=? b2z c then TrimFunc s unicode.IsSpace
    else if asciiSpace c then TrimSpace rest
    else trimStop (rev s)
  end.

End strings.

(** ** strconv *)

Module strconv.

(** The digit loop of [ParseUint(s, 10, 64)]: [n] is the value so far. *)
Fixpoint parseUint_loop (s : gostring) (n : Z) : result Z :=
  match s with
  | [] => Ok n
  | c :: rest =>
    let c := b2z c in
    if (0x30 <=? c) && (c <=? 0x39) then
      let d := c - 0x30 in
      if maxUint64 / 10 + 1 <=? n then Err ErrRange
      else
        let n := (n * 10) mod 2 ^ 64 in
        let n1 := (n + d) mod 2 ^ 64 in
        if (n1 <? n) || (maxUint64 <? n1) then Err ErrRange
        else parseUint_loop rest n1
    else Err ErrSyntax
  end.

Definition ParseUint (s : gostring) : result Z :=
  match s with
  | [] => Err ErrSyntax
  | _ :: _ => parseUint_loop s 0
  end.

(** [ParseInt(s, 10, 0)], the result of type [int64]. *)
Definition ParseInt (s : gostring) : result Z :=
  match s with
  | [] => Err ErrSyntax
  | c :: rest =>
    let neg := b2z c =? 0x2D in
    let s := if (b2z c =? 0x2B) || (b2z c =? 0x2D) then rest else s in
    un <- ParseUint s ;;
    let cutoff := 2 ^ 63 in
    if negb neg && (cutoff <=? un) then Err ErrRange
    else if neg && (cutoff <? un) then Err ErrRange
    else Ok (if neg then - un else un)
  end.

(** [Atoi(s)] is [ParseInt(s, 10, 0)] converted to [int]; its fast path
    for short strings computes the same value. *)
Definition Atoi (s : gostring) : result Z := ParseInt s.

End strconv.

(** ** capability: selectors *)

(** [type CapType uint], with
    [const ( EFFECTIVE CapType = 1 << iota; PERMITTED; INHERITABLE; BOUNDING;
             CAPS = EFFECTIVE | PERMITTED | INHERITABLE; BOUNDS = BOUNDING )]. *)
Definition CapType := Z.

Definition EFFECTIVE : CapType := Z.shiftl 1 0.
Definition PERMITTED : CapType := Z.shiftl 1 1.
Definition INHERITABLE : CapType := Z.shiftl 1 2.
Definition BOUNDING : CapType := Z.shiftl 1 3.

Definition CAPS : CapType := Z.lor (Z.lor EFFECTIVE PERMITTED) INHERITABLE.
Definition BOUNDS : CapType := BOUNDING.

(** [func (c CapType) String() string]. *)
Definition CapType_String (c : CapType) : string :=
  if c =? EFFECTIVE then "effective"
  else if c =? PERMITTED then "permitted"
  else if c =? INHERITABLE then "inheritable"
  else if c =? BOUNDING then "bounding"
  else if c =? CAPS then "caps"
  else "unknown".

(** ** capability: the capability table *)

(** [type Cap int]. *)
Definition Cap := Z.
Definition CAP_CHOWN : Cap := 0.
Definition CAP_DAC_OVERRIDE : Cap := 1.
Definition CAP_DAC_READ_SEARCH : Cap := 2.
Definition CAP_FOWNER : Cap := 3.
Definition CAP_FSETID : Cap := 4.
Definition CAP_KILL : Cap := 5.
Definition CAP_SETGID : Cap := 6.
Definition CAP_SETUID : Cap := 7.
Definition CAP_SETPCAP : Cap := 8.
Definition CAP_LINUX_IMMUTABLE : Cap := 9.
Definition CAP_NET_BIND_SERVICE : Cap := 10.
Definition CAP_NET_BROADCAST : Cap := 11.
Definition CAP_NET_ADMIN : Cap := 12.
Definition CAP_NET_RAW : Cap := 13.
Definition CAP_IPC_LOCK : Cap := 14.
Definition CAP_IPC_OWNER : Cap := 15.
Definition CAP_SYS_MODULE : Cap := 16.
Definition CAP_SYS_RAWIO : Cap := 17.
Definition CAP_SYS_CHROOT : Cap := 18.
Definition CAP_SYS_PTRACE : Cap := 19.
Definition CAP_SYS_PACCT : Cap := 20.
Definition CAP_SYS_ADMIN : Cap := 21.
Definition CAP_SYS_BOOT : Cap := 22.
Definition CAP_SYS_NICE : Cap := 23.
Definition CAP_SYS_RESOURCE : Cap := 24.
Definition CAP_SYS_TIME : Cap := 25.
Definition CAP_SYS_TTY_CONFIG : Cap := 26.
Definition CAP_MKNOD : Cap := 27.
Definition CAP_LEASE : Cap := 28.
Definition CAP_AUDIT_WRITE : Cap := 29.
Definition CAP_AUDIT_CONTROL : Cap := 30.
Definition CAP_SETFCAP : Cap := 31.
Definition CAP_MAC_OVERRIDE : Cap := 32.
Definition CAP_MAC_ADMIN : Cap := 33.
Definition CAP_SYSLOG : Cap := 34.
Definition CAP_WAKE_ALARM : Cap := 35.
Definition CAP_BLOCK_SUSPEND : Cap := 36.
Definition CAP_AUDIT_READ : Cap := 37.

(** [func (c Cap) String() string]: the [switch] over the constants
    above, with ["unknown"] after it. *)
Definition Cap_String (c : Cap) : string :=
  match c with
  | 0 (* CAP_CHOWN *) => "chown"
  | 1 (* CAP_DAC_OVERRIDE *) => "dac_override"
  | 2 (* CAP_DAC_READ_SEARCH *) => "dac_read_search"
  | 3 (* CAP_FOWNER *) => "fowner"
  | 4 (* CAP_FSETID *) => "fsetid"
  | 5 (* CAP_KILL *) => "kill"
  | 6 (* CAP_SETGID *) => "setgid"
  | 7 (* CAP_SETUID *) => "setuid"
  | 8 (* CAP_SETPCAP *) => "setpcap"
  | 9 (* CAP_LINUX_IMMUTABLE *) => "linux_immutable"
  | 10 (* CAP_NET_BIND_SERVICE *) => "net_bind_service"
  | 11 (* CAP_NET_BROADCAST *) => "net_broadcast"
  | 12 (* CAP_NET_ADMIN *) => "net_admin"
  | 13 (* CAP_NET_RAW *) => "net_raw"
  | 14 (* CAP_IPC_LOCK *) => "ipc_lock"
  | 15 (* CAP_IPC_OWNER *) => "ipc_owner"
  | 16 (* CAP_SYS_MODULE *) => "sys_module"
  | 17 (* CAP_SYS_RAWIO *) => "sys_rawio"
  | 18 (* CAP_SYS_CHROOT *) => "sys_chroot"
  | 19 (* CAP_SYS_PTRACE *) => "sys_ptrace"
  | 20 (* CAP_SYS_PACCT *) => "sys_psacct"
  | 21 (* CAP_SYS_ADMIN *) => "sys_admin"
  | 22 (* CAP_SYS_BOOT *) => "sys_boot"
  | 23 (* CAP_SYS_NICE *) => "sys_nice"
  | 24 (* CAP_SYS_RESOURCE *) => "sys_resource"
  | 25 (* CAP_SYS_TIME *) => "sys_time"
  | 26 (* CAP_SYS_TTY_CONFIG *) => "sys_tty_config"
  | 27 (* CAP_MKNOD *) => "mknod"
  | 28 (* CAP_LEASE *) => "lease"
  | 29 (* CAP_AUDIT_WRITE *) => "audit_write"
  | 30 (* CAP_AUDIT_CONTROL *) => "audit_control"
  | 31 (* CAP_SETFCAP *) => "setfcap"
  | 32 (* CAP_MAC_OVERRIDE *) => "mac_override"
  | 33 (* CAP_MAC_ADMIN *) => "mac_admin"
  | 34 (* CAP_SYSLOG *) => "syslog"
  | 35 (* CAP_WAKE_ALARM *) => "wake_alarm"
  | 36 (* CAP_BLOCK_SUSPEND *) => "block_suspend"
  | 37 (* CAP_AUDIT_READ *) => "audit_read"
  | _ => "unknown"
  end.

(** ** capability: the last capability of the running kernel *)

(** The package variables
    [var ( CAP_LAST_CAP = Cap(63); capUpperMask = ^uint32(0) )]. *)
Record Globals : Type := mkGlobals {
  CAP_LAST_CAP : Cap;
  capUpperMask : Z
}.

Definition initial : Globals :=
  {| CAP_LAST_CAP := 63; capUpperMask := not32 0 |}.

(** What [ioutil.ReadFile("/proc/sys/kernel/cap_last_cap")] returns: the
    content of the file, or an error. *)
Definition ReadFile := result gostring.

(** [func getLastCap() (Cap, error)], the result of [ReadFile] being its
    input. *)
Definition getLastCap (file : ReadFile) : result Cap :=
  str <- file ;;
  val <- strconv.Atoi (strings.TrimSpace str) ;;
  Ok val.

(** [func init()]: runs once on the package variables. *)
Definition init (file : ReadFile) (g : Globals) : Globals :=
  match getLastCap file with
  | Ok lastCap =>
    {| CAP_LAST_CAP := lastCap;
       capUpperMask :=
         if 31 <? lastCap then sub32 (shl32 1 (lastCap - 31)) 1
         else 0 |}
  | Err _ => g
  end.

(** The package variables once the package is initialised. *)
Definition initialised (file : ReadFile) : Globals := init file initial.

(** ** Capability state: the in-memory sets *)

Module State.

(** Modelled from the spec: a capability word, the package's
    representation of one capability set, which is declared in a file
    that is not among the sources.  "Two unsigned 32-bit integers per set
    (low = bits 0-31, high = bits 32-63)". *)
Record CapabilityWord : Type := mkWord {
  low : Z;
  high : Z
}.

(** Modelled from the spec: the capability state, declared in the same
    missing file.  It "owns four CapabilityWord pairs (one per base
    CapType)"; it is "created empty". *)
Record CapabilityState : Type := mkState {
  effective : CapabilityWord;
  permitted : CapabilityWord;
  inheritable : CapabilityWord;
  bounding : CapabilityWord
}.

(** Modelled from the spec: the empty state of the missing constructor. *)
Definition empty : CapabilityState :=
  let z := mkWord 0 0 in mkState z z z z.

(** Modelled from the spec: the "in-memory bit test" of the missing [Get]
    on one word; a capability id is an "integer 0..63". *)
Definition testBit (w : CapabilityWord) (i : Cap) : bool :=
  if (0 <=? i) && (i <? 32) then Z.testbit (low w) i
  else if (32 <=? i) && (i <? 64) then Z.testbit (high w) (i - 32)
  else false.

(** Modelled from the spec: the "in-memory bit set" of the missing [Set]
    on one word. *)
Definition setBit (w : CapabilityWord) (i : Cap) : CapabilityWord :=
  if (0 <=? i) && (i <? 32) then mkWord (Z.lor (low w) (shl32 1 i)) (high w)
  else if (32 <=? i) && (i <? 64) then
    mkWord (low w) (Z.lor (high w) (shl32 1 (i - 32)))
  else w.

(** Modelled from the spec: the "in-memory bit clear" of the missing
    [Unset] on one word. *)
Definition clearBit (w : CapabilityWord) (i : Cap) : CapabilityWord :=
  if (0 <=? i) && (i <? 32) then mkWord (Z.ldiff (low w) (shl32 1 i)) (high w)
  else if (32 <=? i) && (i <? 64) then
    mkWord (low w) (Z.ldiff (high w) (shl32 1 (i - 32)))
  else w.

(** Modelled from the spec: whether the selector [which] names the base
    set [base], for the missing [Set] and [Unset] ("a compound selector
    does touch all named sets here"). *)
Definition names (which base : CapType) : bool :=
  negb (Z.land which base =? 0).

(** Modelled from the spec: an operation of the missing [Set] and [Unset]
    applied to "every base set named by the selector". *)
Definition onNamed (op : CapabilityWord -> Cap -> CapabilityWord)
    (which : CapType) (what : Cap) (c : CapabilityState) : CapabilityState :=
  let upd base w := if names which base then op w what else w in
  mkState (upd EFFECTIVE (effective c)) (upd PERMITTED (permitted c))
          (upd INHERITABLE (inheritable c)) (upd BOUNDING (bounding c)).

(** Modelled from the spec: the missing [Get(selector, id) -> bool], a
    "pure in-memory bit test" of one base set, which never ORs several
    sets together. *)
Definition Get (c : CapabilityState) (which : CapType) (what : Cap) : bool :=
  if which =? EFFECTIVE then testBit (effective c) what
  else if which =? PERMITTED then testBit (permitted c) what
  else if which =? INHERITABLE then testBit (inheritable c) what
  else if which =? BOUNDING then testBit (bounding c) what
  else false.

(** Modelled from the spec: the missing [Set(selector, ids ...)], a "pure
    in-memory bit set across every base set named by the selector". *)
Definition Set_ (c : CapabilityState) (which : CapType) (caps : list Cap)
  : CapabilityState :=
  fold_left (fun c what => onNamed setBit which what c) caps c.

(** Modelled from the spec: the missing [Unset(selector, ids ...)], the
    matching bit clear. *)
Definition Unset (c : CapabilityState) (which : CapType) (caps : list Cap)
  : CapabilityState :=
  fold_left (fun c what => onNamed clearBit which what c) caps c.

End State.

(** ** Vocabulary of the statements *)

(** The constants of the [const] block of capabilities, each with its
    identifier, in the order of the source. *)
Definition constants : list (string * Cap) :=
  [("CAP_CHOWN"%string, CAP_CHOWN);
   ("CAP_DAC_OVERRIDE"%string, CAP_DAC_OVERRIDE);
   ("CAP_DAC_READ_SEARCH"%string, CAP_DAC_READ_SEARCH);
   ("CAP_FOWNER"%string, CAP_FOWNER);
   ("CAP_FSETID"%string, CAP_FSETID);
   ("CAP_KILL"%string, CAP_KILL);
   ("CAP_SETGID"%string, CAP_SETGID);
   ("CAP_SETUID"%string, CAP_SETUID);
   ("CAP_SETPCAP"%string, CAP_SETPCAP);
   ("CAP_LINUX_IMMUTABLE"%string, CAP_LINUX_IMMUTABLE);
   ("CAP_NET_BIND_SERVICE"%string, CAP_NET_BIND_SERVICE);
   ("CAP_NET_BROADCAST"%string, CAP_NET_BROADCAST);
   ("CAP_NET_ADMIN"%string, CAP_NET_ADMIN);
   ("CAP_NET_RAW"%string, CAP_NET_RAW);
   ("CAP_IPC_LOCK"%string, CAP_IPC_LOCK);
   ("CAP_IPC_OWNER"%string, CAP_IPC_OWNER);
   ("CAP_SYS_MODULE"%string, CAP_SYS_MODULE);
   ("CAP_SYS_RAWIO"%string, CAP_SYS_RAWIO);
   ("CAP_SYS_CHROOT"%string, CAP_SYS_CHROOT);
   ("CAP_SYS_PTRACE"%string, CAP_SYS_PTRACE);
   ("CAP_SYS_PACCT"%string, CAP_SYS_PACCT);
   ("CAP_SYS_ADMIN"%string, CAP_SYS_ADMIN);
   ("CAP_SYS_BOOT"%string, CAP_SYS_BOOT);
   ("CAP_SYS_NICE"%string, CAP_SYS_NICE);
   ("CAP_SYS_RESOURCE"%string, CAP_SYS_RESOURCE);
   ("CAP_SYS_TIME"%string, CAP_SYS_TIME);
   ("CAP_SYS_TTY_CONFIG"%string, CAP_SYS_TTY_CONFIG);
   ("CAP_MKNOD"%string, CAP_MKNOD);
   ("CAP_LEASE"%string, CAP_LEASE);
   ("CAP_AUDIT_WRITE"%string, CAP_AUDIT_WRITE);
   ("CAP_AUDIT_CONTROL"%string, CAP_AUDIT_CONTROL);
   ("CAP_SETFCAP"%string, CAP_SETFCAP);
   ("CAP_MAC_OVERRIDE"%string, CAP_MAC_OVERRIDE);
   ("CAP_MAC_ADMIN"%string, CAP_MAC_ADMIN);
   ("CAP_SYSLOG"%string, CAP_SYSLOG);
   ("CAP_WAKE_ALARM"%string, CAP_WAKE_ALARM);
   ("CAP_BLOCK_SUSPEND"%string, CAP_BLOCK_SUSPEND);
   ("CAP_AUDIT_READ"%string, CAP_AUDIT_READ)].

(** The known table: the ids that have a constant. *)
Definition known : list Cap := map snd constants.

(** A lowercase identifier: not empty, made of [a]..[z] and [_]. *)
Definition lowerChar (c : ascii) : bool :=
  let n := b2z c in ((0x61 <=? n) && (n <=? 0x7A)) || (n =? 0x5F).

Definition lowerIdent (s : string) : bool :=
  match s with
  | EmptyString => false
  | String _ _ => forallb lowerChar (list_ascii_of_string s)
  end.

(** The identifier of a constant in lower case, without its [CAP_]. *)
Definition toLower (c : ascii) : ascii :=
  let n := N_of_ascii c in
  if ((0x41 <=? n) && (n <=? 0x5A))%N then ascii_of_N (n + 0x20) else c.

Definition lowerName (ident : string) : string :=
  string_of_list_ascii (map toLower (skipn 4 (list_ascii_of_string ident))).

(** Decimal digits and the number a string of digits denotes. *)
Definition isDigit (c : byte) : bool := (0x30 <=? b2z c) && (b2z c <=? 0x39).

Definition digitStep (n : Z) (c : byte) : Z := n * 10 + (b2z c - 0x30).

Definition decValue (ds : gostring) : Z := fold_left digitStep ds 0.

(** A byte that [TrimSpace] stops at: ASCII and no space. *)
Definition solid (c : byte) : bool :=
  (b2z c <? utf8.RuneSelf) && negb (strings.asciiSpace c).

(** The line feed that ends the content of a file under [/proc]. *)
Definition LF : byte := ascii_of_N 0x0A.

(** The values of [uint32]. *)
Definition isUint32 (w : Z) : Prop := 0 <= w < 2 ^ 32.

(** The four base selectors. *)
Definition baseSets : list CapType :=
  [EFFECTIVE; PERMITTED; INHERITABLE; BOUNDING].

(** The selectors that [CapType.String] has a case for. *)
Definition namedSelectors : list CapType :=
  [EFFECTIVE; PERMITTED; INHERITABLE; BOUNDING; CAPS].

(** The two package variables agree: the upper mask is a [uint32] whose
    bit [k] says whether the capability [32 + k] is at most the last
    one. *)
Definition consistent (g : Globals) : Prop :=
  isUint32 (capUpperMask g) /\
  forall k, 0 <= k < 32 ->
    Z.testbit (capUpperMask g) k = (k + 32 <=? CAP_LAST_CAP g).

(** The text that a decimal number with an optional sign makes:
    [signedValue] is what it denotes. *)
Inductive sign : Type := NoSign | Plus | Minus.

Definition signBytes (sg : sign) : gostring :=
  match sg with
  | NoSign => []
  | Plus => ["+"%char]
  | Minus => ["-"%char]
  end.

Definition signedValue (sg : sign) (ds : gostring) : Z :=
  match sg with
  | Minus => - decValue ds
  | _ => decValue ds
  end.

(** The canonical name of an id: the identifier of its constant in the
    [const] block, in lower case and without its [CAP_]; an id without a
    constant has none. *)
Definition canonicalName (c : Cap) : option string :=
  option_map (fun p => lowerName (fst p))
             (find (fun p => snd p =? c) constants).

(** What the lookup is to return: the canonical name of a known id,
    ["unknown"] for any other. *)
Definition expectedName (c : Cap) : string :=
  match canonicalName c with
  | Some name => name
  | None => "unknown"%string
  end.

(** * Properties *)

(** ** Bytes and fixed-width arithmetic *)

Lemma b2z_range (c : byte) : 0 <= b2z c < 256.
Proof.
  unfold b2z. pose proof (N_ascii_bounded c) as H. lia.
Qed.

Lemma wrap32_range (x : Z) : isUint32 (wrap32 x).
Proof.
  unfold isUint32, wrap32. apply Z.mod_pos_bound. lia.
Qed.

Lemma wrap32_small (x : Z) : isUint32 x -> wrap32 x = x.
Proof.
  unfold isUint32, wrap32. intros H. apply Z.mod_small. exact H.
Qed.

Lemma not32_zero : not32 0 = 2 ^ 32 - 1.
Proof. reflexivity. Qed.

(** ** The capability table *)

Lemma known_range (c : Cap) : In c known <-> 0 <= c <= 37.
Proof.
  split.
  - intros H. unfold known, constants in H. simpl in H.
    repeat (destruct H as [<- | H]; [vm_compute; split; discriminate |]).
    contradiction.
  - intros [H0 H1].
    assert (E : c = Z.of_nat (Z.to_nat c)) by lia.
    assert (L : (Z.to_nat c < 38)%nat) by lia.
    rewrite E. generalize dependent (Z.to_nat c). intros n _ L.
    do 38 (destruct n as [|n]; [vm_compute; tauto |]). lia.
Qed.

Lemma Cap_String_outside (c : Cap) :
  ~ (0 <= c <= 37) -> Cap_String c = "unknown"%string.
Proof.
  intros H. destruct c as [|p|p]; [lia | | reflexivity].
  do 6 (try (destruct p as [p|p|]; try lia)); reflexivity.
Qed.

Lemma known_checked (P : Cap -> bool) :
  forallb P known = true -> forall c, In c known -> P c = true.
Proof.
  intros H c Hc. rewrite forallb_forall in H. exact (H c Hc).
Qed.

Lemma Cap_String_lower (c : Cap) :
  In c known -> lowerIdent (Cap_String c) = true.
Proof.
  apply (known_checked (fun c => lowerIdent (Cap_String c))).
  vm_compute. reflexivity.
Qed.

Lemma Cap_String_named (c : Cap) :
  In c known -> Cap_String c <> "unknown"%string.
Proof.
  intros Hc E.
  pose proof (known_checked
    (fun c => negb (String.eqb (Cap_String c) "unknown")) eq_refl c Hc) as H.
  cbv beta in H. rewrite E in H. discriminate H.
Qed.

Lemma Cap_String_injective (c c' : Cap) :
  In c known -> In c' known -> Cap_String c' = Cap_String c -> c' = c.
Proof.
  intros Hc Hc' E.
  pose proof (known_checked
    (fun a => forallb (fun b =>
       implb (String.eqb (Cap_String b) (Cap_String a)) (b =? a)) known)
    eq_refl c Hc) as H.
  cbv beta in H. rewrite forallb_forall in H. specialize (H c' Hc').
  rewrite E, String.eqb_refl in H. simpl in H. apply Z.eqb_eq. exact H.
Qed.

(** The names are the identifiers of the constants in lower case, but for
    [CAP_SYS_PACCT], whose name is spelled ["sys_psacct"]. *)
Lemma Cap_String_spelling (ident : string) (c : Cap) :
  In (ident, c) constants ->
  Cap_String c =
  if c =? CAP_SYS_PACCT then "sys_psacct"%string else lowerName ident.
Proof.
  intros H. unfold constants in H. simpl in H.
  repeat (destruct H as [H | H]; [inversion H; subst; reflexivity |]).
  contradiction.
Qed.

(** ** The loops of [strings] and [utf8] never run out of fuel *)

Lemma DecodeRuneInString_size (s : gostring) :
  s <> [] -> 1 <= snd (utf8.DecodeRuneInString s) <= len s.
Proof.
  intros Hne. unfold utf8.DecodeRuneInString, len.
  destruct s as [|c0 [|c1 [|c2 [|c3 t]]]]; [contradiction | | | |];
    repeat match goal with
           | |- context [if ?b then _ else _] => destruct b
           end;
    cbn [snd List.length]; lia.
Qed.

Lemma backToStart_le (fuel : nat) (s : gostring) (lim start : Z) :
  utf8.backToStart fuel s lim start <= start.
Proof.
  revert start. induction fuel as [|k IH]; intros start; cbn [utf8.backToStart].
  - lia.
  - destruct (lim <=? start); [|lia].
    destruct (nth_error s (Z.to_nat start)) as [b|]; [|lia].
    destruct (utf8.RuneStart b); [lia|].
    specialize (IH (start - 1)). lia.
Qed.

(** More fuel than the distance from [lim] does not change the result. *)
Lemma backToStart_fuel (k : nat) (s : gostring) (lim start : Z) :
  start - lim < Z.of_nat k ->
  utf8.backToStart (S k) s lim start = utf8.backToStart k s lim start.
Proof.
  revert start. induction k as [|k IH]; intros start H.
  - cbn [utf8.backToStart].
    replace (lim <=? start) with false by (symmetry; apply Z.leb_gt; lia).
    reflexivity.
  - cbn [utf8.backToStart] in IH |- *.
    destruct (lim <=? start); [|reflexivity].
    destruct (nth_error s (Z.to_nat start)) as [b|]; [|reflexivity].
    destruct (utf8.RuneStart b); [reflexivity|].
    apply IH. lia.
Qed.

(** The fuel [UTFMax] of the loop in [DecodeLastRuneInString] is as good
    as any larger one. *)
Lemma backToStart_UTFMax (extra : nat) (s : gostring) :
  let lim := Z.max 0 (len s - utf8.UTFMax) in
  utf8.backToStart (Z.to_nat utf8.UTFMax + extra) s lim (len s - 1 - 1)
  = utf8.backToStart (Z.to_nat utf8.UTFMax) s lim (len s - 1 - 1).
Proof.
  intros lim. induction extra as [|n IH].
  - rewrite Nat.add_0_r. reflexivity.
  - rewrite Nat.add_succ_r, backToStart_fuel; [exact IH|].
    subst lim. unfold utf8.UTFMax. lia.
Qed.

Lemma DecodeLastRuneInString_size (s : gostring) :
  s <> [] -> 1 <= snd (utf8.DecodeLastRuneInString s) <= len s.
Proof.
  intros Hne. unfold utf8.DecodeLastRuneInString.
  assert (Hlen : 1 <= len s).
  { unfold len. destruct s; [contradiction | cbn [List.length]; lia]. }
  replace (len s =? 0) with false by (symmetry; apply Z.eqb_neq; lia).
  destruct (_ <? utf8.RuneSelf); [cbn [snd]; lia|].
  set (lim := Z.max 0 (len s - utf8.UTFMax)).
  pose proof (backToStart_le (Z.to_nat utf8.UTFMax) s lim (len s - 1 - 1)) as Hb.
  set (start := Z.max 0 (utf8.backToStart _ s lim (len s - 1 - 1))) in *.
  destruct (utf8.DecodeRuneInString (from s start)) as [r size].
  destruct (start + size =? len s) eqn:E; cbn [snd]; [|lia].
  apply Z.eqb_eq in E. subst start. lia.
Qed.

Lemma len_from (s : gostring) (i : Z) :
  0 <= i <= len s -> len (from s i) = len s - i.
Proof.
  unfold len, from. intros H. rewrite length_skipn. lia.
Qed.

Lemma indexFunc_loop_fuel (k : nat) (f : Z -> bool) (truth : bool)
    (rest : gostring) (i : Z) :
  (List.length rest <= k)%nat ->
  strings.indexFunc_loop (S k) f truth rest i
  = strings.indexFunc_loop k f truth rest i.
Proof.
  revert rest i. induction k as [|k IH]; intros rest i H.
  - destruct rest; [reflexivity | cbn [List.length] in H; lia].
  - cbn [strings.indexFunc_loop] in IH |- *.
    destruct rest as [|c rest]; [reflexivity|].
    pose proof (DecodeRuneInString_size (c :: rest)) as Hs.
    destruct (utf8.DecodeRuneInString (c :: rest)) as [r size].
    cbn [snd] in Hs. specialize (Hs ltac:(discriminate)).
    destruct (Bool.eqb (f r) truth); [reflexivity|].
    apply IH.
    assert (Hl : len (from (c :: rest) size) = len (c :: rest) - size)
      by (apply len_from; lia).
    unfold len in Hl, Hs. cbn [List.length] in *. lia.
Qed.

Lemma lastIndexFunc_loop_fuel (k : nat) (f : Z -> bool) (truth : bool)
    (s : gostring) (i : Z) :
  i <= Z.of_nat k -> i <= len s ->
  strings.lastIndexFunc_loop (S k) f truth s i
  = strings.lastIndexFunc_loop k f truth s i.
Proof.
  revert i. induction k as [|k IH]; intros i H Hi.
  - cbn [strings.lastIndexFunc_loop].
    replace (0 <? i) with false by (symmetry; apply Z.ltb_ge; lia).
    reflexivity.
  - cbn [strings.lastIndexFunc_loop] in IH |- *.
    destruct (0 <? i) eqn:E; [|reflexivity]. apply Z.ltb_lt in E.
    assert (Hu : len (upto s i) = i).
    { unfold len, upto. unfold len in Hi. rewrite length_firstn. lia. }
    pose proof (DecodeLastRuneInString_size (upto s i)) as Hs.
    destruct (utf8.DecodeLastRuneInString (upto s i)) as [r size].
    cbn [snd] in Hs.
    assert (Hne : upto s i <> []).
    { intros E0. rewrite E0 in Hu. unfold len in Hu. cbn in Hu. lia. }
    specialize (Hs Hne).
    destruct (Bool.eqb (f r) truth); [reflexivity|].
    apply IH; lia.
Qed.

(** The fuel that [indexFunc] and [lastIndexFunc] give their loops, the
    length of the string, is as good as any larger one. *)
Lemma indexFunc_fuel (extra : nat) (s : gostring) (f : Z -> bool) (truth : bool) :
  strings.indexFunc_loop (List.length s + extra) f truth s 0
  = strings.indexFunc s f truth.
Proof.
  unfold strings.indexFunc. induction extra as [|n IH].
  - rewrite Nat.add_0_r. reflexivity.
  - rewrite Nat.add_succ_r, indexFunc_loop_fuel by lia. exact IH.
Qed.

Lemma lastIndexFunc_fuel (extra : nat) (s : gostring) (f : Z -> bool) (truth : bool) :
  strings.lastIndexFunc_loop (List.length s + extra) f truth s (len s)
  = strings.lastIndexFunc s f truth.
Proof.
  unfold strings.lastIndexFunc. induction extra as [|n IH].
  - rewrite Nat.add_0_r. reflexivity.
  - rewrite Nat.add_succ_r, lastIndexFunc_loop_fuel by (unfold len; lia).
    exact IH.
Qed.

(** ** strconv.Atoi *)

Lemma decValue_fold (ds : gostring) : decValue ds = fold_left digitStep ds 0.
Proof. reflexivity. Qed.

Lemma digitStep_mono (ds : gostring) (n : Z) :
  Forall (fun c => isDigit c = true) ds -> 0 <= n ->
  n <= fold_left digitStep ds n.
Proof.
  intros H. revert n. induction H as [|c ds Hc _ IH]; intros n Hn; simpl.
  - lia.
  - unfold isDigit in Hc. apply andb_prop in Hc. destruct Hc as [H1 H2].
    apply Z.leb_le in H1, H2.
    assert (Hs : 0 <= digitStep n c) by (unfold digitStep; lia).
    specialize (IH _ Hs). unfold digitStep in *. lia.
Qed.

Lemma parseUint_loop_nonneg (s : gostring) (n v : Z) :
  strconv.parseUint_loop s n = Ok v -> 0 <= n -> 0 <= v.
Proof.
  revert n. induction s as [|c s IH]; intros n H Hn; simpl in H.
  - injection H as <-. exact Hn.
  - destruct (_ && _); [|discriminate].
    destruct (_ <=? n); [discriminate|].
    destruct (_ || _); [discriminate|].
    apply IH in H; [exact H|].
    apply Z.mod_pos_bound. lia.
Qed.

Lemma parseUint_loop_digits (ds : gostring) (n : Z) :
  Forall (fun c => isDigit c = true) ds -> 0 <= n ->
  fold_left digitStep ds n <= maxUint64 ->
  strconv.parseUint_loop ds n = Ok (fold_left digitStep ds n).
Proof.
  intros H. revert n. induction H as [|c ds Hc Hds IH]; intros n Hn Hmax.
  - reflexivity.
  - cbn [strconv.parseUint_loop fold_left] in Hmax |- *.
    pose proof Hc as Hc'. unfold isDigit in Hc'. rewrite Hc'.
    apply andb_prop in Hc'. destruct Hc' as [H1 H2].
    apply Z.leb_le in H1, H2.
    assert (Hs : 0 <= digitStep n c) by (unfold digitStep; lia).
    pose proof (digitStep_mono ds _ Hds Hs) as Hm.
    assert (Hb : digitStep n c <= maxUint64) by lia.
    unfold digitStep in Hb, Hs. unfold maxUint64 in *.
    assert (Hn10 : (n * 10) mod 2 ^ 64 = n * 10)
      by (apply Z.mod_small; lia).
    rewrite Hn10.
    assert (Hn1 : (n * 10 + (b2z c - 0x30)) mod 2 ^ 64 = n * 10 + (b2z c - 0x30))
      by (apply Z.mod_small; lia).
    rewrite Hn1.
    replace ((2 ^ 64 - 1) / 10 + 1 <=? n) with false
      by (symmetry; apply Z.leb_gt; change ((2 ^ 64 - 1) / 10) with 1844674407370955161; lia).
    replace (n * 10 + (b2z c - 0x30) <? n * 10) with false
      by (symmetry; apply Z.ltb_ge; lia).
    replace (2 ^ 64 - 1 <? n * 10 + (b2z c - 0x30)) with false
      by (symmetry; apply Z.ltb_ge; lia).
    simpl. apply IH; assumption.
Qed.

Lemma Atoi_digits (ds : gostring) :
  ds <> [] -> Forall (fun c => isDigit c = true) ds -> decValue ds <= maxInt ->
  strconv.Atoi ds = Ok (decValue ds).
Proof.
  intros Hne Hds Hmax. destruct ds as [|c ds]; [contradiction|].
  unfold strconv.Atoi, strconv.ParseInt.
  pose proof (Forall_inv Hds) as Hc. unfold isDigit in Hc.
  apply andb_prop in Hc. destruct Hc as [H1 H2]. apply Z.leb_le in H1, H2.
  replace (b2z c =? 0x2D) with false by (symmetry; apply Z.eqb_neq; lia).
  replace (b2z c =? 0x2B) with false by (symmetry; apply Z.eqb_neq; lia).
  cbn [orb negb andb]. unfold strconv.ParseUint.
  rewrite decValue_fold in *. unfold maxInt in Hmax.
  rewrite parseUint_loop_digits by (try assumption; unfold maxUint64; lia).
  cbn [bind].
  replace (2 ^ 63 <=? _) with false by (symmetry; apply Z.leb_gt; lia).
  reflexivity.
Qed.

(** What [Atoi] accepts is in the range of [int], and negative only
    behind a minus sign. *)
Lemma Atoi_value (s : gostring) (v : Z) :
  strconv.Atoi s = Ok v ->
  minInt <= v <= maxInt /\
  (hd_error s <> Some "-"%char -> 0 <= v) /\
  (hd_error s = Some "-"%char -> v <= 0).
Proof.
  unfold strconv.Atoi, strconv.ParseInt. destruct s as [|c s]; [discriminate|].
  set (body := if (b2z c =? 0x2B) || (b2z c =? 0x2D) then s else c :: s).
  destruct (strconv.ParseUint body) as [un|e] eqn:E; cbn [bind]; [|discriminate].
  assert (Hun : 0 <= un).
  { unfold strconv.ParseUint in E. destruct body; [discriminate|].
    eapply parseUint_loop_nonneg; [exact E | lia]. }
  assert (Hminus : (b2z c =? 0x2D) = true <-> c = "-"%char).
  { rewrite Z.eqb_eq. split.
    - intros H. rewrite <- (ascii_N_embedding c).
      unfold b2z in H. replace (N_of_ascii c) with 45%N by lia. reflexivity.
    - intros ->. reflexivity. }
  unfold minInt, maxInt. cbn [hd_error].
  destruct (b2z c =? 0x2D) eqn:Eneg; cbn [negb andb].
  - destruct (2 ^ 63 <? un) eqn:Ec; [discriminate|].
    apply Z.ltb_ge in Ec. intros H. injection H as <-.
    split; [lia|]. split; [|lia].
    intros Hne. exfalso. apply Hne. f_equal. apply Hminus. reflexivity.
  - destruct (2 ^ 63 <=? un) eqn:Ec; [discriminate|].
    apply Z.leb_gt in Ec. intros H. injection H as <-.
    split; [lia|]. split; [lia|].
    intros Heq. injection Heq as Heq. apply Hminus in Heq. discriminate Heq.
Qed.

Lemma parseUint_loop_LF (s : gostring) (n : Z) :
  is_ok (strconv.parseUint_loop (s ++ [LF]) n) = false.
Proof.
  revert n. induction s as [|c s IH]; intros n; simpl.
  - reflexivity.
  - destruct (_ && _); [|reflexivity].
    destruct (_ <=? n); [reflexivity|].
    destruct (_ || _); [reflexivity|]. apply IH.
Qed.

(** A text that ends in a line feed is no number for [Atoi]. *)
Lemma Atoi_LF (s : gostring) : is_ok (strconv.Atoi (s ++ [LF])) = false.
Proof.
  unfold strconv.Atoi, strconv.ParseInt.
  destruct s as [|c s]; [reflexivity|]. cbn [app].
  assert (H : forall t, is_ok (strconv.ParseUint (t ++ [LF])) = false).
  { intros t. unfold strconv.ParseUint.
    pose proof (parseUint_loop_LF t 0) as H.
    destruct (t ++ [LF]) eqn:E; [reflexivity | exact H]. }
  destruct (_ || _).
  - specialize (H s). destruct (strconv.ParseUint (s ++ [LF])); [discriminate H | reflexivity].
  - specialize (H (c :: s)). cbn [app] in H.
    destruct (strconv.ParseUint (c :: s ++ [LF])); [discriminate H | reflexivity].
Qed.

(** ** strings.TrimSpace *)

Lemma asciiSpace_ascii (c : byte) :
  strings.asciiSpace c = true -> (utf8.RuneSelf <=? b2z c) = false.
Proof.
  destruct c as [[] [] [] [] [] [] [] []]; vm_compute; intros H;
    solve [reflexivity | discriminate H].
Qed.

Lemma isDigit_solid (c : byte) : isDigit c = true -> solid c = true.
Proof.
  destruct c as [[] [] [] [] [] [] [] []]; vm_compute; intros H;
    solve [reflexivity | discriminate H].
Qed.

Lemma solid_inv (c : byte) :
  solid c = true ->
  (utf8.RuneSelf <=? b2z c) = false /\ strings.asciiSpace c = false.
Proof.
  unfold solid. intros H. apply andb_prop in H. destruct H as [H1 H2].
  apply Z.ltb_lt in H1. apply negb_true_iff in H2.
  split; [apply Z.leb_gt; exact H1 | exact H2].
Qed.

Lemma trimStop_spaces (ws r : gostring) :
  Forall (fun c => strings.asciiSpace c = true) ws ->
  strings.trimStop (rev ws ++ r) = strings.trimStop r.
Proof.
  intros H. revert r. induction H as [|a ws Ha _ IH]; intros r.
  - reflexivity.
  - cbn [rev]. rewrite <- app_assoc. cbn [app]. rewrite IH.
    cbn [strings.trimStop]. rewrite (asciiSpace_ascii a Ha), Ha. reflexivity.
Qed.

Lemma trimStop_solid (c : byte) (r : gostring) :
  solid c = true -> strings.trimStop (c :: r) = rev (c :: r).
Proof.
  intros H. apply solid_inv in H. destruct H as [H1 H2].
  cbn [strings.trimStop]. rewrite H1, H2. reflexivity.
Qed.

(** [TrimSpace] removes the ASCII white space around a text that starts
    and ends with solid bytes, and nothing else. *)
Lemma TrimSpace_surrounded (ws1 core ws2 : gostring) :
  Forall (fun c => strings.asciiSpace c = true) ws1 ->
  Forall (fun c => strings.asciiSpace c = true) ws2 ->
  core <> [] ->
  solid (hd LF core) = true -> solid (last core LF) = true ->
  strings.TrimSpace (ws1 ++ core ++ ws2) = core.
Proof.
  intros H1 H2 Hne Hhd Hlast.
  induction H1 as [|a ws1 Ha _ IH].
  - destruct core as [|c core]; [contradiction|]. cbn [hd] in Hhd.
    cbn [app strings.TrimSpace].
    destruct (solid_inv c Hhd) as [E1 E2]. rewrite E1, E2.
    change (c :: core ++ ws2) with ((c :: core) ++ ws2).
    rewrite rev_app_distr, trimStop_spaces by exact H2.
    destruct (exists_last Hne) as [pre [l E]]. rewrite E in Hlast |- *.
    rewrite last_last in Hlast. rewrite rev_app_distr. cbn [rev app].
    rewrite (trimStop_solid l (rev pre) Hlast).
    cbn [rev]. rewrite rev_involutive. reflexivity.
  - cbn [app strings.TrimSpace].
    rewrite (asciiSpace_ascii a Ha), Ha. exact IH.
Qed.

Lemma TrimSpace_digits (ws1 ds ws2 : gostring) :
  Forall (fun c => strings.asciiSpace c = true) ws1 ->
  Forall (fun c => strings.asciiSpace c = true) ws2 ->
  ds <> [] -> Forall (fun c => isDigit c = true) ds ->
  strings.TrimSpace (ws1 ++ ds ++ ws2) = ds.
Proof.
  intros H1 H2 Hne Hds. apply TrimSpace_surrounded; try assumption.
  - destruct ds as [|c ds]; [contradiction|].
    apply isDigit_solid, (Forall_inv Hds).
  - destruct (exists_last Hne) as [pre [l E]]. rewrite E in Hds |- *.
    rewrite last_last. apply isDigit_solid.
    apply Forall_app in Hds. destruct Hds as [_ Hl]. exact (Forall_inv Hl).
Qed.

(** ** The in-memory sets *)

Lemma shl32_bit (i : Z) : 0 <= i < 32 -> shl32 1 i = 2 ^ i.
Proof.
  intros H. unfold shl32. rewrite Z.shiftl_1_l. apply wrap32_small.
  unfold isUint32. split; [lia|]. apply Z.pow_lt_mono_r; lia.
Qed.

Lemma testBit_setBit (w : State.CapabilityWord) (i : Cap) :
  0 <= i <= 63 -> State.testBit (State.setBit w i) i = true.
Proof.
  intros H. unfold State.testBit, State.setBit.
  destruct ((0 <=? i) && (i <? 32)) eqn:E1; cbn [State.low State.high].
  - apply andb_prop in E1. destruct E1 as [A B].
    apply Z.leb_le in A. apply Z.ltb_lt in B.
    rewrite shl32_bit, Z.lor_spec, Z.pow2_bits_true by lia.
    apply orb_true_r.
  - destruct ((32 <=? i) && (i <? 64)) eqn:E2; cbn [State.low State.high].
    + apply andb_prop in E2. destruct E2 as [A B].
      apply Z.leb_le in A. apply Z.ltb_lt in B.
      rewrite shl32_bit, Z.lor_spec, Z.pow2_bits_true by lia.
      apply orb_true_r.
    + apply andb_false_iff in E1, E2.
      rewrite Z.leb_gt, Z.ltb_ge in E1, E2. lia.
Qed.

Lemma testBit_clearBit (w : State.CapabilityWord) (i : Cap) :
  State.testBit (State.clearBit w i) i = false.
Proof.
  unfold State.testBit, State.clearBit.
  destruct ((0 <=? i) && (i <? 32)) eqn:E1; cbn [State.low State.high].
  - apply andb_prop in E1. destruct E1 as [A B].
    apply Z.leb_le in A. apply Z.ltb_lt in B.
    rewrite shl32_bit, Z.ldiff_spec, Z.pow2_bits_true by lia.
    apply andb_false_r.
  - destruct ((32 <=? i) && (i <? 64)) eqn:E2; cbn [State.low State.high].
    + apply andb_prop in E2. destruct E2 as [A B].
      apply Z.leb_le in A. apply Z.ltb_lt in B.
      rewrite shl32_bit, Z.ldiff_spec, Z.pow2_bits_true by lia.
      apply andb_false_r.
    + reflexivity.
Qed.

(** [Get] on a base selector reads the word that [onNamed] writes. *)
Lemma Get_onNamed (op : State.CapabilityWord -> Cap -> State.CapabilityWord)
    (c : State.CapabilityState) (s : CapType) (i : Cap) :
  In s baseSets ->
  exists w, State.Get (State.onNamed op s i c) s i = State.testBit (op w i) i
            /\ State.Get c s i = State.testBit w i.
Proof.
  intros H. unfold baseSets in H. cbn [In] in H.
  destruct H as [<- | [<- | [<- | [<- | []]]]].
  - exists (State.effective c). split; reflexivity.
  - exists (State.permitted c). split; reflexivity.
  - exists (State.inheritable c). split; reflexivity.
  - exists (State.bounding c). split; reflexivity.
Qed.

Lemma Get_Set (c : State.CapabilityState) (s : CapType) (i : Cap) :
  In s baseSets -> 0 <= i <= 63 -> State.Get (State.Set_ c s [i]) s i = true.
Proof.
  intros Hs Hi. unfold State.Set_. cbn [fold_left].
  destruct (Get_onNamed State.setBit c s i Hs) as [w [E _]].
  rewrite E. apply testBit_setBit. exact Hi.
Qed.

(** ** The selectors *)

(** C6: the four base selectors [EFFECTIVE], [PERMITTED], [INHERITABLE]
    and [BOUNDING] are pairwise distinct; [CAPS] is the union of
    [EFFECTIVE], [PERMITTED] and [INHERITABLE] and names exactly these
    three base sets; [BOUNDS] is [BOUNDING] and names exactly that one. *)
Theorem CapType_selectors :
  NoDup baseSets /\
  CAPS = Z.lor EFFECTIVE (Z.lor PERMITTED INHERITABLE) /\
  BOUNDS = BOUNDING /\
  (forall b, In b baseSets ->
     (Z.land CAPS b <> 0 <-> b = EFFECTIVE \/ b = PERMITTED \/ b = INHERITABLE)) /\
  (forall b, In b baseSets -> (Z.land BOUNDS b <> 0 <-> b = BOUNDING)).
Proof.
  split; [|split; [|split; [|split]]].
  - unfold baseSets. repeat constructor; cbn [In]; vm_compute; intuition discriminate.
  - reflexivity.
  - reflexivity.
  - intros b Hb. unfold baseSets in Hb. cbn [In] in Hb.
    destruct Hb as [<- | [<- | [<- | [<- | []]]]]; vm_compute;
      (split; [intros H | intros H E]); try tauto; try discriminate;
      try (exfalso; apply H; reflexivity);
      destruct H as [H | [H | H]]; discriminate H.
  - intros b Hb. unfold baseSets in Hb. cbn [In] in Hb.
    destruct Hb as [<- | [<- | [<- | [<- | []]]]]; vm_compute;
      (split; [intros H | intros H E]); try tauto; try discriminate;
      exfalso; apply H; reflexivity.
Qed.

Lemma CapType_selectors_witness :
  Z.land CAPS PERMITTED <> 0 /\ ~ Z.land BOUNDS PERMITTED <> 0.
Proof.
  destruct CapType_selectors as [_ [_ [_ [HC HB]]]].
  assert (Hin : In PERMITTED baseSets) by (right; left; reflexivity).
  split.
  - apply (proj2 (HC PERMITTED Hin)). right. left. reflexivity.
  - intros H. apply (proj1 (HB PERMITTED Hin)) in H. discriminate H.
Defined.

(** ** The name lookup *)

(** The shape of the names: on an id of the known table the lookup gives
    a lowercase identifier that is not ["unknown"] and that no other known
    id has, and on every other id it gives ["unknown"]. *)
Theorem Cap_String_lookup (c : Cap) :
  (In c known ->
     lowerIdent (Cap_String c) = true /\
     Cap_String c <> "unknown"%string /\
     forall c', In c' known -> Cap_String c' = Cap_String c -> c' = c) /\
  (~ In c known -> Cap_String c = "unknown"%string).
Proof.
  split.
  - intros H. split; [|split].
    + apply Cap_String_lower. exact H.
    + apply Cap_String_named. exact H.
    + intros c' H' E. apply Cap_String_injective; assumption.
  - intros H. apply Cap_String_outside. rewrite <- known_range. exact H.
Qed.

Lemma Cap_String_lookup_witness :
  (lowerIdent (Cap_String CAP_KILL) = true /\
   Cap_String CAP_KILL <> "unknown"%string /\
   forall c', In c' known -> Cap_String c' = Cap_String CAP_KILL -> c' = CAP_KILL) /\
  Cap_String 38 = "unknown"%string.
Proof.
  split.
  - apply (proj1 (Cap_String_lookup CAP_KILL)). vm_compute. tauto.
  - apply (proj2 (Cap_String_lookup 38)). vm_compute.
    intros H. repeat (destruct H as [H | H]; [discriminate H |]). exact H.
Defined.

Lemma canonicalName_outside (c : Cap) :
  ~ (0 <= c <= 37) -> canonicalName c = None.
Proof.
  intros H. unfold canonicalName.
  destruct (find (fun p => snd p =? c) constants) as [p|] eqn:E;
    [exfalso | reflexivity].
  apply find_some in E. destruct E as [Hin Ec]. apply Z.eqb_eq in Ec.
  apply H, known_range. subst c. unfold known. apply in_map. exact Hin.
Qed.

(** C4: the name lookup is total and gives ["unknown"] for every id
    outside the known table, and the canonical lowercase identifier for
    every known id but one: for [CAP_SYS_PACCT] (20), whose canonical
    name is ["sys_pacct"], it gives ["sys_psacct"]. *)
Theorem Cap_String_canonical :
  In ("CAP_SYS_PACCT"%string, CAP_SYS_PACCT) constants /\
  canonicalName CAP_SYS_PACCT = Some "sys_pacct"%string /\
  Cap_String CAP_SYS_PACCT = "sys_psacct"%string /\
  Cap_String CAP_SYS_PACCT <> expectedName CAP_SYS_PACCT /\
  (forall c : Cap, c <> CAP_SYS_PACCT -> Cap_String c = expectedName c).
Proof.
  split; [unfold constants; cbn [In]; do 20 right; left; reflexivity|].
  split; [reflexivity|]. split; [reflexivity|]. split; [discriminate|].
  intros c Hc.
  destruct (Z_le_gt_dec 0 c) as [H0 | H0];
    [destruct (Z_le_gt_dec c 37) as [H1 | H1] |].
  - assert (Hin : In c known) by (apply known_range; lia).
    unfold known, constants in Hin. cbn [map snd In] in Hin.
    repeat (destruct Hin as [<- | Hin];
            [solve [reflexivity | exfalso; apply Hc; reflexivity] |]).
    contradiction.
  - unfold expectedName. rewrite canonicalName_outside by lia.
    apply Cap_String_outside. lia.
  - unfold expectedName. rewrite canonicalName_outside by lia.
    apply Cap_String_outside. lia.
Qed.

Lemma Cap_String_canonical_witness :
  Cap_String CAP_KILL = expectedName CAP_KILL /\
  Cap_String 38 = expectedName 38.
Proof.
  destruct Cap_String_canonical as [_ [_ [_ [_ H]]]].
  split; apply H; discriminate.
Defined.

(** C8: every id above [CAP_AUDIT_READ] (37) has the name ["unknown"],
    while the last capability that is discovered can be 63: then the ids
    38..63 are at most [CAP_LAST_CAP] and have no name. *)
Theorem Cap_String_above_table :
  (forall c : Cap, CAP_AUDIT_READ < c -> Cap_String c = "unknown"%string) /\
  (exists file : ReadFile,
     getLastCap file = Ok 63 /\
     forall c : Cap, 38 <= c <= 63 ->
       c <= CAP_LAST_CAP (initialised file) /\
       Cap_String c = "unknown"%string).
Proof.
  split.
  - intros c H. apply Cap_String_outside. unfold CAP_AUDIT_READ in H. lia.
  - exists (Ok (gostr "63" ++ [LF])). split; [reflexivity|].
    intros c H. split.
    + change (CAP_LAST_CAP (initialised (Ok (gostr "63" ++ [LF])))) with 63. lia.
    + apply Cap_String_outside. lia.
Qed.

Lemma Cap_String_above_table_witness :
  Cap_String 40 = "unknown"%string.
Proof.
  apply (proj1 Cap_String_above_table 40). reflexivity.
Defined.

(** ** The reader *)

Lemma getLastCap_Atoi (text : gostring) :
  getLastCap (Ok text) = strconv.Atoi (strings.TrimSpace text).
Proof.
  unfold getLastCap. cbn [bind].
  destruct (strconv.Atoi (strings.TrimSpace text)); reflexivity.
Qed.

(** C5: a text that the reader accepts gives an integer of the range of
    [int]; it is non-negative when the trimmed text does not start with a
    minus sign, and at most zero when it does. *)
Theorem getLastCap_value (text : gostring) (v : Cap) :
  getLastCap (Ok text) = Ok v ->
  minInt <= v <= maxInt /\
  (hd_error (strings.TrimSpace text) <> Some "-"%char -> 0 <= v) /\
  (hd_error (strings.TrimSpace text) = Some "-"%char -> v <= 0).
Proof.
  rewrite getLastCap_Atoi. apply Atoi_value.
Qed.

Lemma getLastCap_value_witness :
  minInt <= 40 <= maxInt /\
  (hd_error (strings.TrimSpace (gostr "40" ++ [LF])) <> Some "-"%char -> 0 <= 40) /\
  (hd_error (strings.TrimSpace (gostr "40" ++ [LF])) = Some "-"%char -> 40 <= 0).
Proof.
  apply (getLastCap_value (gostr "40" ++ [LF]) 40). reflexivity.
Defined.

(** C5, as stated, fails: the text ["-1"] and a line feed is accepted and
    gives [-1]. *)
Lemma getLastCap_negative :
  getLastCap (Ok (gostr "-1" ++ [LF])) = Ok (-1) /\
  ~ (forall (file : ReadFile) (v : Cap), getLastCap file = Ok v -> 0 <= v).
Proof.
  split; [reflexivity|].
  intros H. specialize (H (Ok (gostr "-1" ++ [LF])) (-1) eq_refl).
  apply H. reflexivity.
Qed.

(** C9: the reader parses the text without the white space around it: a
    string of digits between ASCII white space, and so one that a line
    feed follows, gives the number the digits denote, which [Atoi] alone
    refuses on the untrimmed text. *)
Theorem getLastCap_trims (ws1 ds ws2 : gostring) :
  Forall (fun c => strings.asciiSpace c = true) ws1 ->
  Forall (fun c => strings.asciiSpace c = true) ws2 ->
  ds <> [] -> Forall (fun c => isDigit c = true) ds -> decValue ds <= maxInt ->
  getLastCap (Ok (ws1 ++ ds ++ ws2)) = Ok (decValue ds) /\
  getLastCap (Ok (ds ++ [LF])) = Ok (decValue ds) /\
  is_ok (strconv.Atoi (ds ++ [LF])) = false.
Proof.
  intros H1 H2 Hne Hds Hmax. split; [|split].
  - rewrite getLastCap_Atoi, TrimSpace_digits by assumption.
    apply Atoi_digits; assumption.
  - rewrite getLastCap_Atoi.
    change (ds ++ [LF]) with ([] ++ ds ++ [LF]).
    rewrite (TrimSpace_digits [] ds [LF]); try assumption.
    + apply Atoi_digits; assumption.
    + constructor.
    + repeat constructor.
  - apply Atoi_LF.
Qed.

Lemma getLastCap_trims_witness :
  getLastCap (Ok ([" "%char] ++ gostr "40" ++ [LF])) = Ok (decValue (gostr "40")) /\
  getLastCap (Ok (gostr "40" ++ [LF])) = Ok (decValue (gostr "40")) /\
  is_ok (strconv.Atoi (gostr "40" ++ [LF])) = false.
Proof.
  apply (getLastCap_trims [" "%char] (gostr "40") [LF]).
  - repeat constructor.
  - repeat constructor.
  - discriminate.
  - repeat constructor.
  - vm_compute. discriminate.
Defined.

(** ** The initialiser *)

Lemma sub32_shl32 (k : Z) : sub32 (shl32 1 k) 1 = wrap32 (Z.shiftl 1 k - 1).
Proof.
  unfold sub32, shl32, wrap32. apply Zminus_mod_idemp_l.
Qed.

Lemma mask_exact (k : Z) : 0 <= k <= 32 -> isUint32 (Z.shiftl 1 k - 1).
Proof.
  intros H. rewrite Z.shiftl_1_l. unfold isUint32.
  assert (0 < 2 ^ k) by (apply Z.pow_pos_nonneg; lia).
  assert (2 ^ k <= 2 ^ 32) by (apply Z.pow_le_mono_r; lia).
  lia.
Qed.

(** Beyond 63 the shift leaves nothing of the [uint32] one, and the mask
    is all ones. *)
Lemma mask_saturates (k : Z) : 32 <= k -> wrap32 (Z.shiftl 1 k - 1) = 2 ^ 32 - 1.
Proof.
  intros H. rewrite Z.shiftl_1_l. unfold wrap32.
  replace k with (32 + (k - 32)) by lia. rewrite Z.pow_add_r by lia.
  replace (2 ^ 32 * 2 ^ (k - 32) - 1)
    with ((2 ^ 32 - 1) + (2 ^ (k - 32) - 1) * 2 ^ 32) by ring.
  rewrite Z.mod_add by lia. reflexivity.
Qed.

(** C1: when the last capability [L] is discovered, [init] stores it and
    sets the upper mask to [0] if [L <= 31] and to [(1 << (L - 31)) - 1]
    if [L > 31]: the expression is computed on [uint32], and for every
    capability id, [L <= 63], its value is the number
    [(1 << (L - 31)) - 1] itself. *)
Theorem init_capUpperMask (file : ReadFile) (g : Globals) (L : Cap) :
  getLastCap file = Ok L ->
  CAP_LAST_CAP (init file g) = L /\
  (L <= 31 -> capUpperMask (init file g) = 0) /\
  (31 < L -> capUpperMask (init file g) = wrap32 (Z.shiftl 1 (L - 31) - 1)) /\
  (31 < L <= 63 -> capUpperMask (init file g) = Z.shiftl 1 (L - 31) - 1).
Proof.
  intros H. unfold init. rewrite H. cbn [CAP_LAST_CAP capUpperMask].
  split; [reflexivity|]. split; [|split]; intros HL.
  - replace (31 <? L) with false by (symmetry; apply Z.ltb_ge; lia).
    reflexivity.
  - replace (31 <? L) with true by (symmetry; apply Z.ltb_lt; lia).
    apply sub32_shl32.
  - replace (31 <? L) with true by (symmetry; apply Z.ltb_lt; lia).
    rewrite sub32_shl32. apply wrap32_small, mask_exact. lia.
Qed.

Lemma init_capUpperMask_witness :
  CAP_LAST_CAP (init (Ok (gostr "40" ++ [LF])) initial) = 40 /\
  (40 <= 31 -> capUpperMask (init (Ok (gostr "40" ++ [LF])) initial) = 0) /\
  (31 < 40 ->
   capUpperMask (init (Ok (gostr "40" ++ [LF])) initial)
   = wrap32 (Z.shiftl 1 (40 - 31) - 1)) /\
  (31 < 40 <= 63 ->
   capUpperMask (init (Ok (gostr "40" ++ [LF])) initial)
   = Z.shiftl 1 (40 - 31) - 1).
Proof.
  apply (init_capUpperMask (Ok (gostr "40" ++ [LF])) initial 40). reflexivity.
Defined.

Lemma init_failure (file : ReadFile) (e : error) (g : Globals) :
  getLastCap file = Err e -> init file g = g.
Proof.
  intros H. unfold init. rewrite H. reflexivity.
Qed.

(** C10: when the discovery fails, [init] leaves the package variables as
    they are: [CAP_LAST_CAP] is 63 and the upper mask is all ones, so
    masking an upper word with it clears nothing. *)
Theorem init_failure_defaults (file : ReadFile) (e : error) :
  getLastCap file = Err e ->
  (forall g, init file g = g) /\
  CAP_LAST_CAP (initialised file) = 63 /\
  capUpperMask (initialised file) = 2 ^ 32 - 1 /\
  (forall w, isUint32 w -> Z.land w (capUpperMask (initialised file)) = w).
Proof.
  intros H.
  assert (E : initialised file = initial) by (apply (init_failure file e), H).
  split; [intros g; apply (init_failure file e), H|].
  rewrite E. split; [reflexivity|]. split; [reflexivity|].
  intros w Hw. change (capUpperMask initial) with (Z.ones 32).
  rewrite Z.land_ones by lia. apply Z.mod_small. exact Hw.
Qed.

Lemma init_failure_defaults_witness :
  (forall g, init (Ok (gostr "garbage")) g = g) /\
  CAP_LAST_CAP (initialised (Ok (gostr "garbage"))) = 63 /\
  capUpperMask (initialised (Ok (gostr "garbage"))) = 2 ^ 32 - 1 /\
  (forall w, isUint32 w ->
     Z.land w (capUpperMask (initialised (Ok (gostr "garbage")))) = w).
Proof.
  apply (init_failure_defaults (Ok (gostr "garbage")) ErrSyntax). reflexivity.
Defined.

(** C2: when the discovery fails, [init] (a total function: it raises
    nothing) leaves the compiled-in defaults in place, and nothing records
    it: the package variables are those that the discovery of 63 leaves. *)
Theorem init_failure_silent (file : ReadFile) (e : error) :
  getLastCap file = Err e ->
  initialised file = initial /\
  exists file' : ReadFile,
    getLastCap file' = Ok 63 /\ initialised file' = initialised file.
Proof.
  intros H.
  assert (E : initialised file = initial) by (apply (init_failure file e), H).
  split; [exact E|].
  exists (Ok (gostr "63" ++ [LF])). split; [reflexivity|].
  rewrite E. reflexivity.
Qed.

Lemma init_failure_silent_witness :
  initialised (Ok (gostr "garbage")) = initial /\
  exists file' : ReadFile,
    getLastCap file' = Ok 63 /\
    initialised file' = initialised (Ok (gostr "garbage")).
Proof.
  apply (init_failure_silent (Ok (gostr "garbage")) ErrSyntax). reflexivity.
Defined.

(** C2, as stated, fails: a malformed text and the text ["63"] leave the
    same package variables, so that no flag computed from them tells a
    failed discovery from a successful one. *)
Lemma fallback_not_observable :
  getLastCap (Ok (gostr "garbage")) = Err ErrSyntax /\
  getLastCap (Ok (gostr "63" ++ [LF])) = Ok 63 /\
  initialised (Ok (gostr "garbage")) = initialised (Ok (gostr "63" ++ [LF])) /\
  ~ (exists flag : Globals -> bool,
       forall file : ReadFile,
         flag (initialised file) = negb (is_ok (getLastCap file))).
Proof.
  split; [reflexivity|]. split; [reflexivity|]. split; [reflexivity|].
  intros [flag H].
  pose proof (H (Ok (gostr "garbage"))) as H1.
  pose proof (H (Ok (gostr "63" ++ [LF]))) as H2.
  change (initialised (Ok (gostr "garbage"))) with initial in H1.
  change (initialised (Ok (gostr "63" ++ [LF]))) with initial in H2.
  rewrite H1 in H2. discriminate H2.
Qed.

(** C3: the compiled-in value that stays when the discovery fails is 63:
    every id from 0 to 63 is at most the last capability, and every bit of
    the upper mask is set. *)
Theorem fallback_is_63 (file : ReadFile) (e : error) :
  getLastCap file = Err e ->
  CAP_LAST_CAP (initialised file) = 63 /\
  (forall id : Cap, 0 <= id <= 63 -> id <= CAP_LAST_CAP (initialised file)) /\
  (forall k, 0 <= k < 32 -> Z.testbit (capUpperMask (initialised file)) k = true).
Proof.
  intros H.
  assert (E : initialised file = initial) by (apply (init_failure file e), H).
  rewrite E. split; [reflexivity|]. split.
  - intros id Hid. change (CAP_LAST_CAP initial) with 63. lia.
  - intros k Hk. change (capUpperMask initial) with (Z.ones 32).
    apply Z.ones_spec_low. exact Hk.
Qed.

Lemma fallback_is_63_witness :
  CAP_LAST_CAP (initialised (Err PathError)) = 63 /\
  (forall id : Cap, 0 <= id <= 63 ->
     id <= CAP_LAST_CAP (initialised (Err PathError))) /\
  (forall k, 0 <= k < 32 ->
     Z.testbit (capUpperMask (initialised (Err PathError))) k = true).
Proof.
  apply (fallback_is_63 (Err PathError) PathError). reflexivity.
Defined.

(** C3, as stated, fails: the value that stays after a failed discovery
    is 63, not less. *)
Lemma fallback_not_below_63 :
  CAP_LAST_CAP (initialised (Err PathError)) = 63 /\
  ~ CAP_LAST_CAP (initialised (Err PathError)) < 63.
Proof.
  split; [reflexivity|]. intros H. discriminate H.
Qed.

(** ** Round trip on the in-memory sets *)

(** C7: on every base set [s] and for every id [i], after [Set(s, i)] and
    then [Unset(s, i)], [Get(s, i)] is false; for an id from 0 to 63 it
    was true in between. *)
Theorem Set_Unset_Get (c : State.CapabilityState) (s : CapType) (i : Cap) :
  In s baseSets ->
  State.Get (State.Unset (State.Set_ c s [i]) s [i]) s i = false /\
  (0 <= i <= 63 -> State.Get (State.Set_ c s [i]) s i = true).
Proof.
  intros Hs. split.
  - unfold State.Unset. cbn [fold_left].
    destruct (Get_onNamed State.clearBit (State.Set_ c s [i]) s i Hs)
      as [w [E _]].
    rewrite E. apply testBit_clearBit.
  - intros Hi. apply Get_Set; assumption.
Qed.

Lemma Set_Unset_Get_witness :
  State.Get (State.Unset (State.Set_ State.empty PERMITTED [CAP_KILL])
                         PERMITTED [CAP_KILL]) PERMITTED CAP_KILL = false /\
  (0 <= CAP_KILL <= 63 ->
   State.Get (State.Set_ State.empty PERMITTED [CAP_KILL]) PERMITTED CAP_KILL
   = true).
Proof.
  apply (Set_Unset_Get State.empty PERMITTED CAP_KILL).
  right. left. reflexivity.
Defined.

(** ** The reader on sample texts *)

Example getLastCap_plain :
  getLastCap (Ok (gostr "40" ++ [LF])) = Ok 40.
Proof. reflexivity. Qed.

Example getLastCap_read_error :
  getLastCap (Err PathError) = Err PathError.
Proof. reflexivity. Qed.

Example getLastCap_inner_space :
  getLastCap (Ok (gostr " 4 0 ")) = Err ErrSyntax.
Proof. reflexivity. Qed.

Example getLastCap_too_large :
  getLastCap (Ok (gostr "9223372036854775808")) = Err ErrRange.
Proof. vm_compute. reflexivity. Qed.

Example getLastCap_least :
  getLastCap (Ok (gostr "-9223372036854775808")) = Ok minInt.
Proof. vm_compute. reflexivity. Qed.

(** A no-break space (U+00A0) before and an em space (U+2003) after the
    digit are white space for [TrimSpace]. *)
Example getLastCap_unicode_space :
  getLastCap (Ok ([ascii_of_N 0xC2; ascii_of_N 0xA0] ++ gostr "7"
                  ++ [ascii_of_N 0xE2; ascii_of_N 0x80; ascii_of_N 0x83]))
  = Ok 7.
Proof. vm_compute. reflexivity. Qed.

Example initialised_40 :
  initialised (Ok (gostr "40" ++ [LF]))
  = {| CAP_LAST_CAP := 40; capUpperMask := 0x1FF |}.
Proof. vm_compute. reflexivity. Qed.

Example initialised_64 :
  initialised (Ok (gostr "64" ++ [LF]))
  = {| CAP_LAST_CAP := 64; capUpperMask := 0xFFFFFFFF |}.
Proof. vm_compute. reflexivity. Qed.

Example initialised_7 :
  initialised (Ok (gostr "7" ++ [LF]))
  = {| CAP_LAST_CAP := 7; capUpperMask := 0 |}.
Proof. vm_compute. reflexivity. Qed.

(** * Further properties *)

(** ** The selector names *)

(** X1: [CapType.String] names the four base selectors and [CAPS], each
    with a name of its own, and answers ["unknown"] for every other
    value, such as a union of two base selectors or [CAPS | BOUNDS];
    [BOUNDS], being [BOUNDING], prints as ["bounding"]. *)
Theorem CapType_String_named (c : CapType) :
  (CapType_String c <> "unknown"%string <-> In c namedSelectors) /\
  (forall c', In c namedSelectors -> In c' namedSelectors ->
     CapType_String c' = CapType_String c -> c' = c) /\
  CapType_String BOUNDS = "bounding"%string /\
  CapType_String (Z.lor CAPS BOUNDS) = "unknown"%string.
Proof.
  split; [|split; [|split; reflexivity]].
  - unfold CapType_String, namedSelectors. cbn [In].
    destruct (c =? EFFECTIVE) eqn:E1;
      [apply Z.eqb_eq in E1; split; [auto | discriminate]|].
    destruct (c =? PERMITTED) eqn:E2;
      [apply Z.eqb_eq in E2; split; [auto | discriminate]|].
    destruct (c =? INHERITABLE) eqn:E3;
      [apply Z.eqb_eq in E3; split; [auto | discriminate]|].
    destruct (c =? BOUNDING) eqn:E4;
      [apply Z.eqb_eq in E4; split; [auto | discriminate]|].
    destruct (c =? CAPS) eqn:E5;
      [apply Z.eqb_eq in E5; split; [auto 6 | discriminate]|].
    apply Z.eqb_neq in E1, E2, E3, E4, E5.
    split; [intros H; exfalso; apply H; reflexivity|].
    intros [H | [H | [H | [H | [H | []]]]]]; symmetry in H; contradiction.
  - intros c' Hc Hc'. unfold namedSelectors in Hc, Hc'. cbn [In] in Hc, Hc'.
    destruct Hc as [<- | [<- | [<- | [<- | [<- | []]]]]];
      destruct Hc' as [<- | [<- | [<- | [<- | [<- | []]]]]];
      vm_compute; intros H; solve [reflexivity | discriminate H].
Qed.

Lemma CapType_String_named_witness :
  CapType_String CAPS <> "unknown"%string /\
  ~ In (Z.lor EFFECTIVE PERMITTED) namedSelectors.
Proof.
  split.
  - apply (proj2 (proj1 (CapType_String_named CAPS))).
    right. right. right. right. left. reflexivity.
  - intros H.
    apply (proj2 (proj1 (CapType_String_named (Z.lor EFFECTIVE PERMITTED)))) in H.
    apply H. reflexivity.
Defined.

(** ** What the reader accepts and what it refuses *)

Lemma isDigit_range (c : byte) :
  isDigit c = true <-> 0x30 <= b2z c <= 0x39.
Proof.
  unfold isDigit. rewrite andb_true_iff, !Z.leb_le. tauto.
Qed.

Lemma digitStep_bounds (n : Z) (c : byte) :
  isDigit c = true -> n * 10 <= digitStep n c <= n * 10 + 9.
Proof.
  rewrite isDigit_range. unfold digitStep. lia.
Qed.

(** The digit loop of [ParseUint] on digits: the value if it fits
    [uint64], a range error if not. *)
Lemma parseUint_loop_overflow (ds : gostring) (n : Z) :
  Forall (fun c => isDigit c = true) ds -> 0 <= n <= maxUint64 ->
  maxUint64 < fold_left digitStep ds n ->
  strconv.parseUint_loop ds n = Err ErrRange.
Proof.
  intros H. revert n. induction H as [|c ds Hc Hds IH]; intros n Hn Hbig.
  - cbn [fold_left] in Hbig. lia.
  - cbn [strconv.parseUint_loop fold_left] in Hbig |- *.
    pose proof Hc as Hc'. unfold isDigit in Hc'. rewrite Hc'.
    pose proof (digitStep_bounds n c Hc) as Hb. unfold digitStep in Hb.
    unfold maxUint64 in *.
    change ((2 ^ 64 - 1) / 10 + 1) with 1844674407370955162.
    destruct (1844674407370955162 <=? n) eqn:E1; [reflexivity|].
    apply Z.leb_gt in E1.
    rewrite (Z.mod_small (n * 10)) by lia.
    destruct (n * 10 + (b2z c - 0x30) <? 2 ^ 64) eqn:E2.
    + apply Z.ltb_lt in E2.
      rewrite (Z.mod_small (n * 10 + (b2z c - 0x30))) by lia.
      replace (n * 10 + (b2z c - 0x30) <? n * 10) with false
        by (symmetry; apply Z.ltb_ge; lia).
      replace (2 ^ 64 - 1 <? n * 10 + (b2z c - 0x30)) with false
        by (symmetry; apply Z.ltb_ge; lia).
      cbn [orb]. apply IH; [lia | exact Hbig].
    + apply Z.ltb_ge in E2.
      assert (Hm : (n * 10 + (b2z c - 0x30)) mod 2 ^ 64
                   = n * 10 + (b2z c - 0x30) - 2 ^ 64).
      { symmetry. apply Z.mod_unique with (q := 1); lia. }
      rewrite Hm.
      replace (n * 10 + (b2z c - 0x30) - 2 ^ 64 <? n * 10) with true
        by (symmetry; apply Z.ltb_lt; lia).
      reflexivity.
Qed.

(** What the digit loop accepts is a string of digits, and the result is
    what they add to [n]. *)
Lemma parseUint_loop_accepts (s : gostring) (n v : Z) :
  0 <= n <= maxUint64 -> strconv.parseUint_loop s n = Ok v ->
  Forall (fun c => isDigit c = true) s /\ v = fold_left digitStep s n
  /\ 0 <= v <= maxUint64.
Proof.
  revert n. induction s as [|c s IH]; intros n Hn H.
  - cbn [strconv.parseUint_loop] in H. injection H as <-.
    split; [constructor|]. split; [reflexivity | exact Hn].
  - cbn [strconv.parseUint_loop fold_left] in H |- *.
    destruct ((0x30 <=? b2z c) && (b2z c <=? 0x39)) eqn:Ed; [|discriminate H].
    assert (Hc : isDigit c = true) by exact Ed.
    pose proof (digitStep_bounds n c Hc) as Hb. unfold digitStep in Hb.
    unfold maxUint64 in *.
    change ((2 ^ 64 - 1) / 10 + 1) with 1844674407370955162 in H.
    destruct (1844674407370955162 <=? n) eqn:E1; [discriminate H|].
    apply Z.leb_gt in E1.
    rewrite (Z.mod_small (n * 10)) in H by lia.
    destruct (_ || _) eqn:E2; [discriminate H|].
    apply orb_false_iff in E2. destruct E2 as [E2 E3].
    apply Z.ltb_ge in E2, E3.
    assert (Hn1 : (n * 10 + (b2z c - 0x30)) mod 2 ^ 64 = digitStep n c).
    { unfold digitStep. apply Z.mod_small. split; [lia|].
      destruct (Z_lt_ge_dec (n * 10 + (b2z c - 0x30)) (2 ^ 64)) as [L | G];
        [exact L | exfalso].
      assert (Hm : (n * 10 + (b2z c - 0x30)) mod 2 ^ 64
                   = n * 10 + (b2z c - 0x30) - 2 ^ 64)
        by (symmetry; apply Z.mod_unique with (q := 1); lia).
      rewrite Hm in E2. lia. }
    rewrite Hn1 in H, E3.
    destruct (IH (digitStep n c)) as [F [Ev Hv]];
      [unfold digitStep in *; lia | exact H |].
    split; [constructor; assumption|]. split; assumption.
Qed.

Lemma ParseUint_accepts (s : gostring) (v : Z) :
  strconv.ParseUint s = Ok v ->
  s <> [] /\ Forall (fun c => isDigit c = true) s /\ v = decValue s.
Proof.
  unfold strconv.ParseUint. destruct s as [|c s]; [discriminate|].
  intros H. apply parseUint_loop_accepts in H; [|unfold maxUint64; lia].
  destruct H as [F [E _]]. split; [discriminate|]. split; assumption.
Qed.

Lemma ParseUint_digits (ds : gostring) :
  ds <> [] -> Forall (fun c => isDigit c = true) ds ->
  strconv.ParseUint ds
  = if decValue ds <=? maxUint64 then Ok (decValue ds) else Err ErrRange.
Proof.
  intros Hne Hds. unfold strconv.ParseUint.
  destruct ds as [|c ds]; [contradiction|]. rewrite decValue_fold.
  destruct (fold_left digitStep (c :: ds) 0 <=? maxUint64) eqn:E.
  - apply Z.leb_le in E. apply parseUint_loop_digits; [assumption | lia | exact E].
  - apply Z.leb_gt in E.
    apply parseUint_loop_overflow; [assumption | unfold maxUint64; lia | exact E].
Qed.

Lemma byte_of_b2z (c : byte) (n : N) : b2z c = Z.of_N n -> c = ascii_of_N n.
Proof.
  unfold b2z. intros H. rewrite <- (ascii_N_embedding c). f_equal. lia.
Qed.

Lemma decValue_nonneg (ds : gostring) :
  Forall (fun c => isDigit c = true) ds -> 0 <= decValue ds.
Proof.
  intros H. rewrite decValue_fold. apply digitStep_mono; [exact H | lia].
Qed.

(** [Atoi] on a sign and digits: the signed value if it fits [int], a
    range error if not. *)
Lemma Atoi_signed (sg : sign) (ds : gostring) :
  ds <> [] -> Forall (fun c => isDigit c = true) ds ->
  strconv.Atoi (signBytes sg ++ ds)
  = if (minInt <=? signedValue sg ds) && (signedValue sg ds <=? maxInt)
    then Ok (signedValue sg ds) else Err ErrRange.
Proof.
  intros Hne Hds. pose proof (decValue_nonneg ds Hds) as H0.
  pose proof (ParseUint_digits ds Hne Hds) as HP.
  unfold strconv.Atoi, strconv.ParseInt, minInt, maxInt, maxUint64 in *.
  destruct sg; cbn [signBytes app signedValue].
  - destruct ds as [|c ds]; [contradiction|].
    pose proof (Forall_inv Hds) as Hc. apply isDigit_range in Hc.
    replace (b2z c =? 0x2D) with false by (symmetry; apply Z.eqb_neq; lia).
    replace (b2z c =? 0x2B) with false by (symmetry; apply Z.eqb_neq; lia).
    cbn [orb negb andb]. rewrite HP.
    destruct (decValue (c :: ds) <=? 2 ^ 64 - 1) eqn:E1; cbn [bind].
    + apply Z.leb_le in E1.
      replace (- 2 ^ 63 <=? decValue (c :: ds)) with true
        by (symmetry; apply Z.leb_le; lia).
      cbn [andb].
      destruct (decValue (c :: ds) <=? 2 ^ 63 - 1) eqn:E2.
      * apply Z.leb_le in E2.
        replace (2 ^ 63 <=? decValue (c :: ds)) with false
          by (symmetry; apply Z.leb_gt; lia).
        reflexivity.
      * apply Z.leb_gt in E2.
        replace (2 ^ 63 <=? decValue (c :: ds)) with true
          by (symmetry; apply Z.leb_le; lia).
        reflexivity.
    + apply Z.leb_gt in E1.
      replace (decValue (c :: ds) <=? 2 ^ 63 - 1) with false
        by (symmetry; apply Z.leb_gt; lia).
      rewrite andb_false_r. reflexivity.
  - change (b2z "+"%char =? 0x2D) with false.
    change (b2z "+"%char =? 0x2B) with true.
    cbn [orb negb andb]. rewrite HP.
    destruct (decValue ds <=? 2 ^ 64 - 1) eqn:E1; cbn [bind].
    + apply Z.leb_le in E1.
      replace (- 2 ^ 63 <=? decValue ds) with true
        by (symmetry; apply Z.leb_le; lia).
      cbn [andb].
      destruct (decValue ds <=? 2 ^ 63 - 1) eqn:E2.
      * apply Z.leb_le in E2.
        replace (2 ^ 63 <=? decValue ds) with false
          by (symmetry; apply Z.leb_gt; lia).
        reflexivity.
      * apply Z.leb_gt in E2.
        replace (2 ^ 63 <=? decValue ds) with true
          by (symmetry; apply Z.leb_le; lia).
        reflexivity.
    + apply Z.leb_gt in E1.
      replace (decValue ds <=? 2 ^ 63 - 1) with false
        by (symmetry; apply Z.leb_gt; lia).
      rewrite andb_false_r. reflexivity.
  - change (b2z "-"%char =? 0x2D) with true.
    change (b2z "-"%char =? 0x2B) with false.
    cbn [orb negb andb]. rewrite HP.
    destruct (decValue ds <=? 2 ^ 64 - 1) eqn:E1; cbn [bind].
    + apply Z.leb_le in E1.
      replace (- decValue ds <=? 2 ^ 63 - 1) with true
        by (symmetry; apply Z.leb_le; lia).
      rewrite andb_true_r.
      destruct (- 2 ^ 63 <=? - decValue ds) eqn:E2.
      * apply Z.leb_le in E2.
        replace (2 ^ 63 <? decValue ds) with false
          by (symmetry; apply Z.ltb_ge; lia).
        reflexivity.
      * apply Z.leb_gt in E2.
        replace (2 ^ 63 <? decValue ds) with true
          by (symmetry; apply Z.ltb_lt; lia).
        reflexivity.
    + apply Z.leb_gt in E1.
      replace (- 2 ^ 63 <=? - decValue ds) with false
        by (symmetry; apply Z.leb_gt; lia).
      reflexivity.
Qed.

(** What [Atoi] accepts is a sign and digits. *)
Lemma Atoi_accepts (s : gostring) (v : Z) :
  strconv.Atoi s = Ok v ->
  exists (sg : sign) (ds : gostring),
    s = signBytes sg ++ ds /\ ds <> [] /\
    Forall (fun c => isDigit c = true) ds /\ v = signedValue sg ds.
Proof.
  unfold strconv.Atoi, strconv.ParseInt. destruct s as [|c s]; [discriminate|].
  destruct (b2z c =? 0x2B) eqn:Ep; [|destruct (b2z c =? 0x2D) eqn:Em];
    cbn [orb negb andb].
  - apply Z.eqb_eq in Ep.
    replace (b2z c =? 0x2D) with false by (symmetry; apply Z.eqb_neq; lia).
    cbn [negb andb].
    destruct (strconv.ParseUint s) as [un|e] eqn:E; cbn [bind]; [|discriminate].
    destruct (2 ^ 63 <=? un); [discriminate|]. intros H. injection H as <-.
    apply ParseUint_accepts in E. destruct E as [Hne [F Ev]].
    exists Plus, s. cbn [signBytes app signedValue].
    rewrite (byte_of_b2z c 43 Ep). repeat split; assumption.
  - apply Z.eqb_eq in Em.
    destruct (strconv.ParseUint s) as [un|e] eqn:E; cbn [bind]; [|discriminate].
    destruct (2 ^ 63 <? un); [discriminate|]. intros H. injection H as <-.
    apply ParseUint_accepts in E. destruct E as [Hne [F Ev]].
    exists Minus, s. cbn [signBytes app signedValue].
    rewrite (byte_of_b2z c 45 Em). rewrite Ev. repeat split; assumption.
  - destruct (strconv.ParseUint (c :: s)) as [un|e] eqn:E; cbn [bind];
      [|discriminate].
    destruct (2 ^ 63 <=? un); [discriminate|]. intros H. injection H as <-.
    apply ParseUint_accepts in E. destruct E as [Hne [F Ev]].
    exists NoSign, (c :: s). cbn [signBytes app signedValue].
    repeat split; assumption.
Qed.

Lemma TrimSpace_spaces (ws : gostring) :
  Forall (fun c => strings.asciiSpace c = true) ws ->
  strings.TrimSpace ws = [].
Proof.
  induction 1 as [|a ws Ha _ IH]; [reflexivity|].
  cbn [strings.TrimSpace]. rewrite (asciiSpace_ascii a Ha), Ha. exact IH.
Qed.

Lemma TrimSpace_number (ws1 : gostring) (sg : sign) (ds ws2 : gostring) :
  Forall (fun c => strings.asciiSpace c = true) ws1 ->
  Forall (fun c => strings.asciiSpace c = true) ws2 ->
  ds <> [] -> Forall (fun c => isDigit c = true) ds ->
  strings.TrimSpace (ws1 ++ (signBytes sg ++ ds) ++ ws2) = signBytes sg ++ ds.
Proof.
  intros H1 H2 Hne Hds. apply TrimSpace_surrounded; try assumption.
  - destruct sg; destruct ds; discriminate || contradiction.
  - destruct sg; cbn [signBytes app hd]; try reflexivity.
    destruct ds as [|c ds]; [contradiction|].
    apply isDigit_solid, (Forall_inv Hds).
  - destruct (exists_last Hne) as [pre [l E]]. rewrite E in Hds |- *.
    rewrite app_assoc, last_last. apply isDigit_solid.
    apply Forall_app in Hds. destruct Hds as [_ Hl]. exact (Forall_inv Hl).
Qed.

(** X2: the reader accepts a text exactly when, without the white space
    around it, the text is an optional sign [+] or [-] and one or more
    decimal digits whose signed value is in the range of [int]; that
    value is what it returns. *)
Theorem getLastCap_accepts (text : gostring) (v : Cap) :
  getLastCap (Ok text) = Ok v <->
  exists (sg : sign) (ds : gostring),
    strings.TrimSpace text = signBytes sg ++ ds /\ ds <> [] /\
    Forall (fun c => isDigit c = true) ds /\
    v = signedValue sg ds /\ minInt <= v <= maxInt.
Proof.
  rewrite getLastCap_Atoi. split.
  - intros H. destruct (Atoi_accepts _ _ H) as [sg [ds [E [Hne [F Ev]]]]].
    exists sg, ds. repeat split; try assumption; apply (Atoi_value _ _ H).
  - intros [sg [ds [E [Hne [F [Ev [Hlo Hhi]]]]]]].
    rewrite E, Atoi_signed by assumption. rewrite <- Ev.
    replace (minInt <=? v) with true by (symmetry; apply Z.leb_le; exact Hlo).
    replace (v <=? maxInt) with true by (symmetry; apply Z.leb_le; exact Hhi).
    reflexivity.
Qed.

Lemma getLastCap_accepts_witness :
  exists (sg : sign) (ds : gostring),
    strings.TrimSpace (gostr " +40" ++ [LF]) = signBytes sg ++ ds /\ ds <> [] /\
    Forall (fun c => isDigit c = true) ds /\
    40 = signedValue sg ds /\ minInt <= 40 <= maxInt.
Proof.
  apply (proj1 (getLastCap_accepts (gostr " +40" ++ [LF]) 40)). reflexivity.
Defined.

(** X3: a file that is empty or holds nothing but ASCII white space is a
    syntax error for the reader, and [init] keeps the defaults. *)
Theorem getLastCap_blank (ws : gostring) :
  Forall (fun c => strings.asciiSpace c = true) ws ->
  getLastCap (Ok ws) = Err ErrSyntax /\ initialised (Ok ws) = initial.
Proof.
  intros H.
  assert (E : getLastCap (Ok ws) = Err ErrSyntax).
  { rewrite getLastCap_Atoi, TrimSpace_spaces by exact H. reflexivity. }
  split; [exact E|]. unfold initialised, init. rewrite E. reflexivity.
Qed.

Lemma getLastCap_blank_witness :
  getLastCap (Ok [LF]) = Err ErrSyntax /\ initialised (Ok [LF]) = initial.
Proof.
  apply (getLastCap_blank [LF]). repeat constructor.
Defined.

(** X4: on an optional sign and digits between ASCII white space the
    reader gives the signed value if it is in the range of [int] (so a
    leading [+] and leading zeros are accepted), and a range error if it
    is not. *)
Theorem getLastCap_number (ws1 : gostring) (sg : sign) (ds ws2 : gostring) :
  Forall (fun c => strings.asciiSpace c = true) ws1 ->
  Forall (fun c => strings.asciiSpace c = true) ws2 ->
  ds <> [] -> Forall (fun c => isDigit c = true) ds ->
  getLastCap (Ok (ws1 ++ (signBytes sg ++ ds) ++ ws2))
  = if (minInt <=? signedValue sg ds) && (signedValue sg ds <=? maxInt)
    then Ok (signedValue sg ds) else Err ErrRange.
Proof.
  intros H1 H2 Hne Hds.
  rewrite getLastCap_Atoi, TrimSpace_number by assumption.
  apply Atoi_signed; assumption.
Qed.

Lemma getLastCap_number_witness :
  getLastCap (Ok ([] ++ (signBytes Minus ++ gostr "9223372036854775809") ++ [LF]))
  = if (minInt <=? signedValue Minus (gostr "9223372036854775809"))
       && (signedValue Minus (gostr "9223372036854775809") <=? maxInt)
    then Ok (signedValue Minus (gostr "9223372036854775809"))
    else Err ErrRange.
Proof.
  apply (getLastCap_number [] Minus (gostr "9223372036854775809") [LF]).
  - constructor.
  - repeat constructor.
  - discriminate.
  - repeat constructor.
Defined.

(** X5: ASCII white space around a text that starts and ends with bytes
    that are ASCII and no white space changes nothing for the reader,
    whether it accepts the text or not. *)
Theorem getLastCap_ignores_spaces (ws1 core ws2 : gostring) :
  Forall (fun c => strings.asciiSpace c = true) ws1 ->
  Forall (fun c => strings.asciiSpace c = true) ws2 ->
  core <> [] -> solid (hd LF core) = true -> solid (last core LF) = true ->
  getLastCap (Ok (ws1 ++ core ++ ws2)) = getLastCap (Ok core).
Proof.
  intros H1 H2 Hne Hh Hl. rewrite !getLastCap_Atoi.
  rewrite TrimSpace_surrounded by assumption.
  pose proof (TrimSpace_surrounded [] core [] (Forall_nil _) (Forall_nil _)
                Hne Hh Hl) as E.
  cbn [app] in E. rewrite app_nil_r in E. rewrite E. reflexivity.
Qed.

Lemma getLastCap_ignores_spaces_witness :
  getLastCap (Ok (gostr "  " ++ gostr "4x" ++ [LF])) = getLastCap (Ok (gostr "4x")).
Proof.
  apply (getLastCap_ignores_spaces (gostr "  ") (gostr "4x") [LF]).
  - repeat constructor.
  - repeat constructor.
  - discriminate.
  - reflexivity.
  - reflexivity.
Defined.

Lemma parseUint_loop_error (s : gostring) (n : Z) (e : error) :
  strconv.parseUint_loop s n = Err e -> e = ErrSyntax \/ e = ErrRange.
Proof.
  revert n. induction s as [|c s IH]; intros n H;
    cbn [strconv.parseUint_loop] in H; [discriminate H|].
  destruct (_ && _); [|injection H as <-; left; reflexivity].
  destruct (_ <=? n); [injection H as <-; right; reflexivity|].
  destruct (_ || _); [injection H as <-; right; reflexivity|].
  exact (IH _ H).
Qed.

Lemma Atoi_error (s : gostring) (e : error) :
  strconv.Atoi s = Err e -> e = ErrSyntax \/ e = ErrRange.
Proof.
  unfold strconv.Atoi, strconv.ParseInt.
  destruct s as [|c s]; [intros H; injection H as <-; left; reflexivity|].
  set (body := if (b2z c =? 0x2B) || (b2z c =? 0x2D) then s else c :: s).
  destruct (strconv.ParseUint body) as [un|e'] eqn:E; cbn [bind].
  - destruct (_ && _); [intros H; injection H as <-; right; reflexivity|].
    destruct (_ && _); [intros H; injection H as <-; right; reflexivity|].
    discriminate.
  - intros H. injection H as <-. unfold strconv.ParseUint in E.
    destruct body; [injection E as <-; left; reflexivity|].
    exact (parseUint_loop_error _ _ _ E).
Qed.

(** X6: an error of the reader is either the error of the read, passed
    on as it is, or, when the file was read, a syntax or range error of
    the parse. *)
Theorem getLastCap_error (file : ReadFile) (e : error) :
  getLastCap file = Err e ->
  file = Err e \/
  exists text, file = Ok text /\ (e = ErrSyntax \/ e = ErrRange).
Proof.
  destruct file as [text|e']; intros H.
  - right. exists text. split; [reflexivity|].
    rewrite getLastCap_Atoi in H. exact (Atoi_error _ _ H).
  - left. cbn in H. injection H as <-. reflexivity.
Qed.

Lemma getLastCap_error_witness :
  Ok (gostr "4 0") = Err ErrSyntax \/
  exists text, Ok (gostr "4 0") = Ok text /\
               (ErrSyntax = ErrSyntax \/ ErrSyntax = ErrRange).
Proof.
  apply (getLastCap_error (Ok (gostr "4 0")) ErrSyntax). reflexivity.
Defined.

Lemma decValue_snoc (ds : gostring) (c : byte) :
  decValue (ds ++ [c]) = decValue ds * 10 + (b2z c - 0x30).
Proof.
  unfold decValue. rewrite fold_left_app. reflexivity.
Qed.

(** Every natural number is written with decimal digits. *)
Lemma digits_exist (n : Z) :
  0 <= n ->
  exists ds : gostring,
    ds <> [] /\ Forall (fun c => isDigit c = true) ds /\ decValue ds = n.
Proof.
  revert n. apply (Wf_Z.Zlt_0_ind (fun n => exists ds : gostring,
    ds <> [] /\ Forall (fun c => isDigit c = true) ds /\ decValue ds = n)).
  intros n IH Hn.
  assert (Hd : forall d, 0 <= d <= 9 ->
            exists c : byte, isDigit c = true /\ b2z c = 0x30 + d).
  { intros d Hd. exists (ascii_of_N (Z.to_N (0x30 + d))).
    assert (E : b2z (ascii_of_N (Z.to_N (0x30 + d))) = 0x30 + d).
    { unfold b2z. rewrite N_ascii_embedding by lia. lia. }
    split; [apply isDigit_range; lia | exact E]. }
  destruct (Z_lt_ge_dec n 10) as [Hs | Hb].
  - destruct (Hd n ltac:(lia)) as [c [Hc Ec]].
    exists [c]. split; [discriminate|]. split; [repeat constructor; exact Hc|].
    unfold decValue, digitStep. cbn [fold_left]. lia.
  - destruct (IH (n / 10)) as [ds [Hne [F E]]].
    { split; [apply Z.div_pos; lia | apply Z.div_lt; lia]. }
    pose proof (Z.mod_pos_bound n 10 ltac:(lia)) as Hm.
    destruct (Hd (n mod 10) ltac:(lia)) as [c [Hc Ec]].
    exists (ds ++ [c]). split; [destruct ds; discriminate|]. split.
    + apply Forall_app. split; [exact F | repeat constructor; exact Hc].
    + rewrite decValue_snoc, E, Ec.
      pose proof (Z.div_mod n 10 ltac:(lia)). lia.
Qed.

(** X7: the reader bounds nothing but the range of [int]: for every
    integer of that range, negative or above 63 as well, there is a text
    that the reader turns into it and that [init] stores in
    [CAP_LAST_CAP]. *)
Theorem getLastCap_any_int (v : Z) :
  minInt <= v <= maxInt ->
  exists text : gostring,
    getLastCap (Ok text) = Ok v /\ CAP_LAST_CAP (initialised (Ok text)) = v.
Proof.
  intros Hv.
  assert (H : exists text : gostring, getLastCap (Ok text) = Ok v).
  { destruct (Z_lt_ge_dec v 0) as [Hneg | Hpos].
    - destruct (digits_exist (- v) ltac:(lia)) as [ds [Hne [F E]]].
      exists ([] ++ (signBytes Minus ++ ds) ++ [LF]).
      rewrite getLastCap_number; try assumption; try (repeat constructor).
      cbn [signedValue]. rewrite E, Z.opp_involutive.
      replace (minInt <=? v) with true by (symmetry; apply Z.leb_le; lia).
      replace (v <=? maxInt) with true by (symmetry; apply Z.leb_le; lia).
      reflexivity.
    - destruct (digits_exist v ltac:(lia)) as [ds [Hne [F E]]].
      exists ([] ++ (signBytes NoSign ++ ds) ++ [LF]).
      rewrite getLastCap_number; try assumption; try (repeat constructor).
      cbn [signedValue]. rewrite E.
      replace (minInt <=? v) with true by (symmetry; apply Z.leb_le; lia).
      replace (v <=? maxInt) with true by (symmetry; apply Z.leb_le; lia).
      reflexivity. }
  destruct H as [text E]. exists text. split; [exact E|].
  unfold initialised, init. rewrite E. reflexivity.
Qed.

Lemma getLastCap_any_int_witness :
  exists text : gostring,
    getLastCap (Ok text) = Ok 100 /\
    CAP_LAST_CAP (initialised (Ok text)) = 100.
Proof.
  apply (getLastCap_any_int 100). split; discriminate.
Defined.

(** ** What the initialiser keeps *)

(** The upper mask after a discovery: the low [L - 31] bits, none below
    32 and all 32 beyond 62. *)
Lemma init_mask_ones (file : ReadFile) (g : Globals) (L : Cap) :
  getLastCap file = Ok L ->
  capUpperMask (init file g) = Z.ones (Z.min 32 (Z.max 0 (L - 31))).
Proof.
  intros H. unfold init. rewrite H. cbn [capUpperMask].
  destruct (31 <? L) eqn:E.
  - apply Z.ltb_lt in E. rewrite sub32_shl32.
    destruct (Z_lt_ge_dec (L - 31) 32) as [Hs | Hb].
    + rewrite Z.max_r, Z.min_r by lia.
      rewrite wrap32_small by (apply mask_exact; lia).
      rewrite Z.shiftl_1_l, Z.ones_equiv. lia.
    + rewrite Z.max_r, Z.min_l by lia. apply mask_saturates. lia.
  - apply Z.ltb_ge in E. rewrite Z.max_l, Z.min_r by lia. reflexivity.
Qed.

Lemma ones_uint32 (j : Z) : 0 <= j <= 32 -> isUint32 (Z.ones j).
Proof.
  intros H. rewrite Z.ones_equiv. unfold isUint32.
  assert (0 < 2 ^ j) by (apply Z.pow_pos_nonneg; lia).
  assert (2 ^ j <= 2 ^ 32) by (apply Z.pow_le_mono_r; lia).
  lia.
Qed.

(** X8: the two package variables always agree.  They do at the start,
    and [init] keeps it so whatever the file holds: the upper mask is a
    [uint32] whose bit [k] is set exactly when the capability [32 + k]
    is at most [CAP_LAST_CAP]. *)
Theorem init_consistent :
  consistent initial /\
  forall (file : ReadFile) (g : Globals),
    consistent g -> consistent (init file g).
Proof.
  assert (H0 : consistent initial).
  { split.
    - change (capUpperMask initial) with (Z.ones 32). apply ones_uint32. lia.
    - intros k Hk. change (capUpperMask initial) with (Z.ones 32).
      change (CAP_LAST_CAP initial) with 63.
      rewrite Z.ones_spec_low by lia. symmetry. apply Z.leb_le. lia. }
  split; [exact H0|]. intros file g Hg.
  destruct (getLastCap file) as [L|e] eqn:E.
  - split.
    + rewrite (init_mask_ones file g L E). apply ones_uint32. lia.
    + intros k Hk. rewrite (init_mask_ones file g L E).
      assert (EL : CAP_LAST_CAP (init file g) = L)
        by (unfold init; rewrite E; reflexivity).
      rewrite EL, Z.testbit_ones_nonneg by lia.
      destruct (k + 32 <=? L) eqn:Ek.
      * apply Z.leb_le in Ek. apply Z.ltb_lt. lia.
      * apply Z.leb_gt in Ek. apply Z.ltb_ge. lia.
  - rewrite (init_failure file e g E). exact Hg.
Qed.

Lemma init_consistent_witness :
  consistent (init (Ok (gostr "40" ++ [LF])) initial).
Proof.
  destruct init_consistent as [H0 H]. apply H. exact H0.
Defined.

(** X9: a larger last capability never gives a smaller upper mask: if
    two discoveries give [L1 <= L2], every bit of the first mask is a bit
    of the second; and from 63 on the mask is the same, all ones. *)
Theorem init_mask_monotone (file1 file2 : ReadFile) (g1 g2 : Globals)
    (L1 L2 : Cap) :
  getLastCap file1 = Ok L1 -> getLastCap file2 = Ok L2 -> L1 <= L2 ->
  Z.land (capUpperMask (init file1 g1)) (capUpperMask (init file2 g2))
  = capUpperMask (init file1 g1) /\
  (63 <= L1 -> capUpperMask (init file1 g1) = capUpperMask (init file2 g2)).
Proof.
  intros H1 H2 HL.
  rewrite (init_mask_ones file1 g1 L1 H1), (init_mask_ones file2 g2 L2 H2).
  set (j1 := Z.min 32 (Z.max 0 (L1 - 31))).
  set (j2 := Z.min 32 (Z.max 0 (L2 - 31))).
  assert (Hj : 0 <= j1 <= j2) by (subst j1 j2; lia).
  split.
  - rewrite Z.land_ones by lia. apply Z.mod_small.
    rewrite Z.ones_equiv.
    assert (0 < 2 ^ j1) by (apply Z.pow_pos_nonneg; lia).
    assert (2 ^ j1 <= 2 ^ j2) by (apply Z.pow_le_mono_r; lia).
    lia.
  - intros H63. f_equal. subst j1 j2. lia.
Qed.

Lemma init_mask_monotone_witness :
  Z.land (capUpperMask (init (Ok (gostr "37")) initial))
         (capUpperMask (init (Ok (gostr "40")) initial))
  = capUpperMask (init (Ok (gostr "37")) initial) /\
  (63 <= 37 -> capUpperMask (init (Ok (gostr "37")) initial)
               = capUpperMask (init (Ok (gostr "40")) initial)).
Proof.
  apply (init_mask_monotone (Ok (gostr "37")) (Ok (gostr "40"))
           initial initial 37 40).
  - reflexivity.
  - reflexivity.
  - discriminate.
Defined.

(** ** The capability names *)

(** X10: the ids with a name are the interval from [CAP_CHOWN] to
    [CAP_AUDIT_READ] without a gap: the name is ["unknown"] exactly for
    the ids outside it, the negative ones too. *)
Theorem Cap_String_interval (c : Cap) :
  Cap_String c <> "unknown"%string <-> CAP_CHOWN <= c <= CAP_AUDIT_READ.
Proof.
  unfold CAP_CHOWN, CAP_AUDIT_READ. split.
  - intros H.
    destruct (Z_le_gt_dec 0 c) as [H0 | H0];
      [destruct (Z_le_gt_dec c 37) as [H1 | H1]; [lia|] |];
      exfalso; apply H, Cap_String_outside; lia.
  - intros H. apply Cap_String_named, known_range. exact H.
Qed.

Lemma Cap_String_interval_witness :
  Cap_String CAP_SETFCAP <> "unknown"%string.
Proof.
  apply (proj2 (Cap_String_interval CAP_SETFCAP)). split; discriminate.
Defined.

(** X11: the name of a capability is the identifier of its constant in
    lower case and without the [CAP_] in front, for every constant but
    [CAP_SYS_PACCT], whose name is spelled ["sys_psacct"]. *)
Theorem Cap_String_identifier (ident : string) (c : Cap) :
  In (ident, c) constants ->
  (c <> CAP_SYS_PACCT -> Cap_String c = lowerName ident) /\
  (c = CAP_SYS_PACCT ->
   Cap_String c = "sys_psacct"%string /\ lowerName ident = "sys_pacct"%string).
Proof.
  intros H. unfold constants in H. cbn [In] in H.
  repeat (destruct H as [H | H];
          [injection H as <- <-; split; intros Hc;
             [solve [reflexivity | exfalso; apply Hc; reflexivity]
             | solve [split; reflexivity | discriminate Hc]] |]).
  contradiction.
Qed.

Lemma Cap_String_identifier_witness :
  (CAP_NET_ADMIN <> CAP_SYS_PACCT ->
   Cap_String CAP_NET_ADMIN = lowerName "CAP_NET_ADMIN") /\
  (CAP_NET_ADMIN = CAP_SYS_PACCT ->
   Cap_String CAP_NET_ADMIN = "sys_psacct"%string /\
   lowerName "CAP_NET_ADMIN" = "sys_pacct"%string).
Proof.
  apply (Cap_String_identifier "CAP_NET_ADMIN" CAP_NET_ADMIN).
  unfold constants. cbn [In]. do 12 right. left. reflexivity.
Defined.

(** ** The selectors as bit flags *)

(** X12: the base selectors are single bits, each its own: two different
    base selectors have no bit in common, and the union of two base
    selectors names these two base sets and no other. *)
Theorem baseSets_flags (a b : CapType) :
  In a baseSets -> In b baseSets ->
  (exists k, 0 <= k < 4 /\ a = 2 ^ k) /\
  (a <> b -> Z.land a b = 0) /\
  (forall c, In c baseSets ->
     (Z.land (Z.lor a b) c <> 0 <-> c = a \/ c = b)).
Proof.
  intros Ha Hb. unfold baseSets in Ha, Hb. cbn [In] in Ha, Hb.
  split; [|split].
  - destruct Ha as [<- | [<- | [<- | [<- | []]]]];
      [exists 0 | exists 1 | exists 2 | exists 3]; split; try lia; reflexivity.
  - intros Hne.
    destruct Ha as [<- | [<- | [<- | [<- | []]]]];
      destruct Hb as [<- | [<- | [<- | [<- | []]]]];
      solve [reflexivity | exfalso; apply Hne; reflexivity].
  - intros c Hc. unfold baseSets in Hc. cbn [In] in Hc.
    destruct Ha as [<- | [<- | [<- | [<- | []]]]];
      destruct Hb as [<- | [<- | [<- | [<- | []]]]];
      destruct Hc as [<- | [<- | [<- | [<- | []]]]];
      vm_compute; split; intros H;
      solve [ discriminate
            | left; reflexivity
            | right; reflexivity
            | exfalso; apply H; reflexivity
            | destruct H as [H | H]; discriminate H ].
Qed.

Lemma baseSets_flags_witness :
  (exists k, 0 <= k < 4 /\ INHERITABLE = 2 ^ k) /\
  (INHERITABLE <> BOUNDING -> Z.land INHERITABLE BOUNDING = 0) /\
  (forall c, In c baseSets ->
     (Z.land (Z.lor INHERITABLE BOUNDING) c <> 0
      <-> c = INHERITABLE \/ c = BOUNDING)).
Proof.
  apply (baseSets_flags INHERITABLE BOUNDING).
  - right. right. left. reflexivity.
  - right. right. right. left. reflexivity.
Defined.
